(** * build-tools: target file resolution, CI detection and promotion

    A shallow embedding of the parts of build-tools that the promotion
    pipeline rests on:

    - [GoStrings]: the functions of Go's [strings] and [path/filepath]
      packages that the code calls, on byte strings;
    - [File]: [pkg/file/file.go], the override-by-suffix file resolver;
    - [CI]: [pkg/ci/ci.go], provider detection and the build name;
    - [Gateway] and [Promote]: the GitOps repository gateway and the
      promotion orchestrator;
    - [Docker] and [Build]: [pkg/docker/testing.go], the docker client of
      the tests, and the [build] package that builds and tags the image. *)

From Stdlib Require Import ZArith Ascii DecimalString.
From stdpp Require Import base option list sorting gmap fin_maps strings.

Local Open Scope nat_scope.

(** ** Results of fallible Go functions

    A Go function returning [(T, error)] yields either a value with a [nil]
    error or an error; [error] values are kept as their message. *)

Definition error := string.

Inductive Result (A : Type) : Type :=
  | Ok (a : A)
  | Err (e : error).
Arguments Ok {A} a.
Arguments Err {A} e.

(** ** Go's string functions *)

Module GoStrings.

(** [strings.HasSuffix]:
    [len(s) >= len(suffix) && s[len(s)-len(suffix):] == suffix]. *)
Definition HasSuffix (s suffix : string) : bool :=
  (String.length suffix <=? String.length s) &&
  String.eqb
    (String.substring (String.length s - String.length suffix)
                      (String.length suffix) s)
    suffix.

(** [strings.TrimSuffix]: [s] without the trailing [suffix], or [s]
    itself when it does not end with [suffix]. *)
Definition TrimSuffix (s suffix : string) : string :=
  if HasSuffix s suffix
  then String.substring 0 (String.length s - String.length suffix) s
  else s.

(** [strings.Index]: the position of the first occurrence of [substr]
    in [s]; [None] stands for Go's [-1]. *)
Fixpoint Index (s substr : string) : option nat :=
  if String.prefix substr s then Some 0
  else match s with
       | EmptyString => None
       | String _ s' => S <$> Index s' substr
       end.

(** [strings.Contains]: [Index(s, substr) >= 0]. *)
Definition Contains (s substr : string) : bool :=
  match Index s substr with
  | Some _ => true
  | None => false
  end.

(** One byte of [strings.ToLower] on ASCII text: the letters ['A'..'Z']
    move to ['a'..'z'], every other byte stays. *)
Definition lower_byte (c : ascii) : ascii :=
  let n := nat_of_ascii c in
  if (65 <=? n) && (n <=? 90) then ascii_of_nat (n + 32) else c.

(** The first loop of [strings.ToLower]: no byte is [utf8.RuneSelf]
    (0x80) or above. *)
Fixpoint isASCII (s : string) : bool :=
  match s with
  | EmptyString => true
  | String c s' => (nat_of_ascii c <? 128) && isASCII s'
  end.

(** The branch of [strings.ToLower] for ASCII-only strings: every byte in
    ['A'..'Z'] gets ['a' - 'A'] added. A string without such a byte comes
    back as it is. *)
Fixpoint lowerASCII (s : string) : string :=
  match s with
  | EmptyString => EmptyString
  | String c s' => String (lower_byte c) (lowerASCII s')
  end.

(** What Go's [unicode] tables give: [mapToLower s] is
    [strings.Map(unicode.ToLower, s)], the branch of [strings.ToLower] for
    a string with a byte of 0x80 or above. Every rune of [s] is mapped to a
    rune, so a string that is not empty is mapped to one that is not
    empty. *)
Class UnicodeTables : Type := {
  mapToLower : string → string;
  mapToLower_nonempty : ∀ s, s ≠ EmptyString → mapToLower s ≠ EmptyString
}.

(** [strings.ToLower]: the ASCII branch when the string is ASCII only,
    [Map(unicode.ToLower, s)] otherwise. *)
Definition ToLower `{UnicodeTables} (s : string) : string :=
  if isASCII s then lowerASCII s else mapToLower s.

(** Tables that map every string to itself. They stand in where every
    string is ASCII only and the tables are not consulted. *)
Definition noTables : UnicodeTables :=
  {| mapToLower := λ s, s; mapToLower_nonempty := λ s Hs, Hs |}.

(** [strings.ReplaceAll(s, old, new)] for one-byte [old] and [new]. *)
Fixpoint ReplaceByte (old new : ascii) (s : string) : string :=
  match s with
  | EmptyString => EmptyString
  | String c s' =>
      String (if Ascii.eqb c old then new else c) (ReplaceByte old new s')
  end.

End GoStrings.

(** ** pkg/file/file.go: the target file resolver *)

Module File.
Import GoStrings.

(** What [os.FileInfo] gives for one directory entry. *)
Record FileInfo : Type := mkInfo {
  Name : string;
  Size : Z;
  IsDir : bool
}.

(** [ioutil.ReadDir], as the file system answers for each directory. *)
Definition FileSystem := string → Result (list FileInfo).

(** [fmt.Sprintf("-%s%s", target, suffix)] *)
Definition targetSuffix (target suffix : string) : string :=
  "-" +:+ target +:+ suffix.

(** [fmt.Sprintf("%s-%s%s", strings.TrimSuffix(k, suffix), target, suffix)] *)
Definition overrideName (k target suffix : string) : string :=
  TrimSuffix k suffix +:+ "-" +:+ target +:+ suffix.

(** The body of the first loop for one directory entry. *)
Definition consider (target suffix : string)
    (matching : gmap string FileInfo) (info : FileInfo)
    : gmap string FileInfo :=
  if HasSuffix (Name info) suffix then
    if HasSuffix (Name info) (targetSuffix target suffix)
       || negb (Contains (Name info) "-")
    then <[Name info := info]> matching
    else matching
  else matching.

(** The first loop: the map [matching] after all of [files]. *)
Definition collect (target suffix : string) (files : list FileInfo)
    : gmap string FileInfo :=
  foldl (consider target suffix) ∅ files.

(** The test of the second loop on one key of [matching]. *)
Definition used (target suffix : string)
    (matching : gmap string FileInfo) (k : string) : bool :=
  if HasSuffix k (targetSuffix target suffix) then true
  else bool_decide (matching !! overrideName k target suffix = None).

(** The second loop, over the entries of [matching] in the order [kvs]
    in which [range] hands them out. *)
Definition selectFrom (target suffix : string)
    (matching : gmap string FileInfo) (kvs : list (string * FileInfo))
    : list FileInfo :=
  foldl (λ result kv,
           if used target suffix matching kv.1
           then result ++ [kv.2] else result)
        [] kvs.

(** The [less] function handed to [sort.Slice]. *)
Definition less (a b : FileInfo) : bool := String.ltb (Name a) (Name b).

(** [sort.Slice(result, less)]: afterwards no element is [less] than an
    element before it. *)
Definition notAfter (a b : FileInfo) : Prop := less b a = false.

#[global] Instance notAfter_dec : RelDecision notAfter.
Proof. intros a b. unfold notAfter. apply _. Defined.

Definition sortSlice (result : list FileInfo) : list FileInfo :=
  merge_sort notAfter result.

(** A [range] over a Go map visits every entry once, in an order that
    changes from run to run: a schedule picks the order. *)
Definition Schedule := gmap string FileInfo → list (string * FileInfo).

Definition fair (range : Schedule) : Prop :=
  ∀ m, range m ≡ₚ map_to_list m.

(** [filesForTarget(dir, target, filetype, suffix)]. [filetype] only
    labels the debug log lines, which are not part of the result. *)
Definition filesForTarget (fs : FileSystem) (range : Schedule)
    (dir target filetype suffix : string) : Result (list FileInfo) :=
  match fs dir with
  | Err e => Err e
  | Ok files =>
      let matching := collect target suffix files in
      Ok (sortSlice (selectFrom target suffix matching (range matching)))
  end.

Definition FindFilesForTarget (fs : FileSystem) (range : Schedule)
    (dir target : string) : Result (list FileInfo) :=
  filesForTarget fs range dir target "file" ".yaml".

Definition FindScriptsForTarget (fs : FileSystem) (range : Schedule)
    (dir target : string) : Result (list FileInfo) :=
  filesForTarget fs range dir target "script" ".sh".

(** The test that lets a directory entry into [matching]. *)
Definition candidate (target suffix k : string) : bool :=
  HasSuffix k suffix
  && (HasSuffix k (targetSuffix target suffix) || negb (Contains k "-")).

(** Every value of [matching] sits under its own name. *)
Definition keyed (m : gmap string FileInfo) : Prop :=
  ∀ k v, m !! k = Some v → Name v = k.

(** File names in Go's [<] order on strings, byte by byte. *)
Definition before (a b : string) : Prop := String.ltb a b = true.

(** The entries chosen from the candidates, before they are sorted. *)
Definition chosen (target suffix : string) (files : list FileInfo) : list FileInfo :=
  let matching := collect target suffix files in
  selectFrom target suffix matching (map_to_list matching).

(** A directory with the given names, and nothing else readable. *)
Definition entry (n : string) : FileInfo := mkInfo n 0 false.

Definition oneDir (d : string) (names : list string) : FileSystem :=
  λ dir, if String.eqb dir d then Ok (entry <$> names)
         else Err ("open " +:+ dir +:+ ": no such file or directory").

Definition names (r : Result (list FileInfo)) : Result (list string) :=
  match r with Ok l => Ok (Name <$> l) | Err e => Err e end.

(** A descriptor directory with a default and an override for [prod], a
    default with no override, and a file of another target. *)
Definition sampleNames : list string :=
  ["b.yaml"; "a-prod.yaml"; "x-other.yaml"; "a.yaml"; "readme.md"].

Definition sampleDir : FileSystem := oneDir "k8s" sampleNames.

(** The second order a [range] may take. *)
Definition backwards : Schedule := λ m, reverse (map_to_list m).

End File.


(** ** path/filepath.Base, on slash-separated paths *)

Module FilePath.

(** The path without its trailing separators. *)
Fixpoint stripTrailing (path : string) : string :=
  match path with
  | EmptyString => EmptyString
  | String c rest =>
      match stripTrailing rest with
      | EmptyString =>
          if Ascii.eqb c "/" then EmptyString else String c EmptyString
      | kept => String c kept
      end
  end.

(** What follows the last separator: [elem] is the element read so far. *)
Fixpoint lastElementFrom (elem path : string) : string :=
  match path with
  | EmptyString => elem
  | String c rest =>
      if Ascii.eqb c "/" then lastElementFrom EmptyString rest
      else lastElementFrom (elem +:+ String c EmptyString) rest
  end.

(** [filepath.Base]: the last element of the path; ["."] for the empty
    path and ["/"] for a path of separators only. *)
Definition Base (path : string) : string :=
  if String.eqb path "" then "."
  else
    let elem := lastElementFrom "" (stripTrailing path) in
    if String.eqb elem "" then "/" else elem.

End FilePath.

(** ** pkg/ci/ci.go: CI provider detection and the build name *)

Module CI.
Import GoStrings.

(** The provider variants behind the [CI] interface. *)
Inductive Provider : Type := azure | buildkite | gitlab.

#[global] Instance Provider_eq_dec : EqDecision Provider.
Proof. solve_decision. Defined.

(** [var cis = []CI{&azure{}, &buildkite{}, &gitlab{}}] *)
Definition cis : list Provider := [azure; buildkite; gitlab].

(** The loop of [Identify] over the providers left to probe. Each
    provider's [identify()] reads the process environment; its answer is
    the parameter [identify]. *)
Fixpoint probe (identify : Provider → bool) (rest : list Provider)
    : option Provider :=
  match rest with
  | [] => None
  | ci :: rest' => if identify ci then Some ci else probe identify rest'
  end.

(** [Identify()]; [None] is Go's [nil]. *)
Definition Identify (identify : Provider → bool) : option Provider :=
  probe identify cis.

(** [CommonCI.BuildName()]: the lower-cased base name of the working
    directory, [cwd] being what [os.Getwd] returns. *)
Definition BuildName `{UnicodeTables} (cwd : string) : string :=
  ToLower (FilePath.Base cwd).

End CI.

(** ** The GitOps repository gateway

    The gateway's code is not among the sources. The data and the steps
    below follow sections 3 and 4.3 of the specification. *)

Module Gateway.

(** One commit of the GitOps repository: the committed file tree, from
    path to content, with the author and the message. *)
Record Commit : Type := mkCommit {
  tree : gmap string string;
  author : string;
  message : string
}.

(** The seven steps of a promotion through the gateway. *)
Inductive Step : Type :=
  | Clone | Authenticate | Destination | Write | Stage | CreateCommit | Push.

#[global] Instance Step_eq_dec : EqDecision Step.
Proof. solve_decision. Defined.

(** What lies outside the process: the remote repositories, each with the
    history of its branch (newest commit first), the private key files that
    can be read, and the step, if any, at which the environment makes the
    invocation fail. *)
Record World : Type := mkWorld {
  remotes : gmap string (list Commit);
  keyFiles : gset string;
  fault : Step → option error
}.

Record GitOpsEndpoint : Type := mkEndpoint {
  url : string;
  path : string;
  tag : string
}.

Record GitCredentials : Type := mkCredentials {
  user : string;
  key : string;
  password : string
}.

(** One entry of the DescriptorSet. *)
Record Descriptor : Type := mkDescriptor {
  fileName : string;
  content : string
}.

Record CommitOutcome : Type := mkOutcome {
  attempted : bool;
  hash : option nat;
  pushed : bool
}.

(** The side effects of an invocation, in the order they happen. *)
Inductive Event : Type :=
  | Cloned (from : string)
  | Authenticated (with_key : string)
  | Wrote (dest : string)
  | Committed (c : Commit)
  | Pushed (to : string) (c : Commit).

Inductive Outcome : Type :=
  | Finished (o : CommitOutcome)
  | Failed (at_step : Step) (e : error).

Record Run : Type := mkRun {
  outcome : Outcome;
  after : World;
  trace : list Event
}.

(** The tree at HEAD; a repository without commits has the empty tree. *)
Definition headTree (history : list Commit) : gmap string string :=
  match history with
  | c :: _ => tree c
  | [] => ∅
  end.

(** Modelled from the spec: step 3 of the gateway, which is not among the
    sources: [<configured path, default "">/<normalized build name>]. *)
Definition destination (configured name : string) : string :=
  if String.eqb configured "" then name else configured +:+ "/" +:+ name.

(** Modelled from the spec: step 4 of the gateway, which is not among the
    sources: every entry is written under the destination, over what is
    there; files elsewhere are left as they are. *)
Definition writeEntry (dest : string) (t : gmap string string)
    (d : Descriptor) : gmap string string :=
  <[dest +:+ "/" +:+ fileName d := content d]> t.

Definition writeAll (dest : string) (t : gmap string string)
    (ds : list Descriptor) : gmap string string :=
  foldl (writeEntry dest) t ds.

(** Modelled from the spec: step 5 of the gateway, which is not among the
    sources: what staging the destination directory puts in the index, and
    its comparison with the tree at HEAD. *)
Definition staged (dest : string) (t : gmap string string)
    : gmap string string :=
  filter (λ kv, String.prefix (dest +:+ "/") kv.1 = true) t.

Definition diffEmpty (dest : string) (t head : gmap string string) : bool :=
  bool_decide (staged dest t = staged dest head).

(** A step at which the environment makes the invocation fail ends it;
    nothing is retried. *)
Definition failed (w : World) (events : list Event) (s : Step) (e : error)
    : Run :=
  mkRun (Failed s e) w events.

Definition step (w : World) (events : list Event) (s : Step) (next : Run)
    : Run :=
  match fault w s with
  | Some e => failed w events s e
  | None => next
  end.

(** The remote after it accepted a push of [history]. *)
Definition pushed_to (w : World) (to : string) (history : list Commit)
    : World :=
  mkWorld (<[to := history]> (remotes w)) (keyFiles w) (fault w).

(** Modelled from the spec: the gateway's [Promote(endpoint, credentials,
    descriptorSet, destinationPath, authorIdentity)] is not among the
    sources; these are the seven steps of section 4.3. [name] is the
    normalized build name that ends the destination path, [msg] the commit
    message. *)
Definition Promote (w : World) (endpoint : GitOpsEndpoint)
    (credentials : GitCredentials) (descriptorSet : list Descriptor)
    (name authorIdentity msg : string) : Run :=
  step w [] Clone
    match remotes w !! url endpoint with
    | None => failed w [] Clone "repository not found"
    | Some history =>
  let ev1 := [Cloned (url endpoint)] in
  step w ev1 Authenticate
    (if decide (key credentials ∈ keyFiles w) then
  let ev2 := ev1 ++ [Authenticated (key credentials)] in
  step w ev2 Destination
    (let dest := destination (path endpoint) name in
  step w ev2 Write
    (let written := writeAll dest (headTree history) descriptorSet in
     let ev4 := ev2 ++ [Wrote dest] in
  step w ev4 Stage
    (if diffEmpty dest written (headTree history) then
       mkRun (Finished (mkOutcome false None false)) w ev4
     else
  step w ev4 CreateCommit
    (let c := mkCommit written authorIdentity msg in
     let ev6 := ev4 ++ [Committed c] in
  step w ev6 Push
    (mkRun (Finished (mkOutcome true (Some (S (length history))) true))
           (pushed_to w (url endpoint) (c :: history))
           (ev6 ++ [Pushed (url endpoint) c]))))))
     else
       failed w ev1 Authenticate
         ("ssh key: open " +:+ key credentials
          +:+ ": no such file or directory"))
    end.

(** No event of the trace is a commit or a push. *)
Definition quiet (events : list Event) : Prop :=
  (∀ c, Committed c ∉ events) ∧ (∀ to c, Pushed to c ∉ events).

(** The commits that an invocation added to the repository at [to]. *)
Definition newCommits (before_run after_run : World) (to : string) : nat :=
  length (default [] (remotes after_run !! to))
  - length (default [] (remotes before_run !! to)).

End Gateway.

(** ** The promotion orchestrator

    Of [pkg/promote] only the test of [DoPromote] is among the sources.
    The state machine below follows sections 3, 4.2, 4.4 and 6 of the
    specification; the parsers of the command line and of the
    configuration file are collaborators, and what they return is an
    input. *)

Module Promote.
Import GoStrings File Gateway.

(** The positional argument and the flags that steer the promotion. *)
Record Args : Type := mkArgs {
  Target : string;
  Tag : string;
  URL : string;
  Path : string;
  User : string;
  Key : string;
  Password : string;
  Out : string
}.

(** What the argument parser makes of the command line. *)
Inductive Parsed : Type :=
  | HelpRequested
  | VersionRequested
  | BadArguments (e : error)
  | Arguments_ (a : Args).

(** The [git] section of the configuration file. *)
Record GitConfig : Type := mkGit {
  gitName : string;
  gitEmail : string;
  gitUser : string;
  gitKey : string;
  gitPassword : string
}.

Record Config : Type := mkConfig {
  gitops : gmap string GitOpsEndpoint;
  git : GitConfig
}.

(** What the CI-metadata collaborator reports; [RawBuildName] is the build
    name before normalization. *)
Record BuildIdentity : Type := mkBuild {
  Commit : string;
  Branch : string;
  RawBuildName : string
}.

(** One invocation: the parsed command line, the result of loading the
    configuration, the build identity, the working directory with the
    content of its files, the order in which maps are ranged over, and the
    home directory. *)
Record Invocation : Type := mkInvocation {
  parsed : Parsed;
  config : Result Config;
  build : BuildIdentity;
  directories : FileSystem;
  range : Schedule;
  readFile : string → Result string;
  writeOut : string → option error;
  home : string
}.

(** The kinds of result of section 7, with the ones that are no failure. *)
Inductive Kind : Type :=
  | Success
  | NoOp
  | HelpShown
  | VersionShown
  | ArgumentError
  | ConfigError
  | TargetNotFoundError
  | UnidentifiedBuildError
  | DescriptorNotFoundError
  | CredentialError
  | GitTransportError
  | FilesystemError.

#[global] Instance Kind_eq_dec : EqDecision Kind.
Proof. solve_decision. Defined.

(** Modelled from the spec: the exit code of each kind of result, by the
    table of section 4.4 and the list of section 6; [DoPromote] itself is
    not among the sources. *)
Definition exitCode (k : Kind) : Z :=
  match k with
  | Success | NoOp | HelpShown | VersionShown => 0
  | ArgumentError | ConfigError => -1
  | TargetNotFoundError => -2
  | UnidentifiedBuildError => -3
  | DescriptorNotFoundError | CredentialError
  | GitTransportError | FilesystemError => -4
  end%Z.

(** Modelled from the spec: the normalized build name, lower case with
    every [_] rewritten to [-] (section 3, BuildIdentity); the code that
    computes the destination path is not among the sources. *)
Definition normalize `{UnicodeTables} (raw : string) : string :=
  ReplaceByte "_" "-" (ToLower raw).

(** The first of the values that is set. *)
Definition firstSet (values : list string) : string :=
  default "" (head (filter (λ v, v ≠ "") values)).

(** A leading [~] stands for the home directory. *)
Definition expandHome (home_dir p : string) : string :=
  match p with
  | String "~" rest => home_dir +:+ rest
  | _ => p
  end.

(** Modelled from the spec: the credential resolver of section 4.2, which
    is not among the sources: command line, then configuration file, then
    the default key [~/.ssh/id_rsa] and user [git]. Nothing is read. *)
Definition resolveCredentials (home_dir : string) (a : Args) (g : GitConfig)
    : GitCredentials :=
  mkCredentials
    (firstSet [User a; gitUser g; "git"])
    (expandHome home_dir (firstSet [Key a; gitKey g; "~/.ssh/id_rsa"]))
    (firstSet [Password a; gitPassword g]).

(** The endpoint of the target with the overrides of the command line. *)
Definition resolveEndpoint (a : Args) (e : GitOpsEndpoint) : GitOpsEndpoint :=
  mkEndpoint (firstSet [URL a; url e]) (firstSet [Path a; path e])
             (firstSet [Tag a; tag e]).

Definition authorOf (g : GitConfig) : string :=
  firstSet [gitName g; "Buildtools"] +:+ " <"
  +:+ firstSet [gitEmail g; "git@buildtools.io"] +:+ ">".

Definition commitMessage (name commit : string) : string :=
  "ci: promoting " +:+ name +:+ " commit " +:+ commit.

(** The DescriptorSet: the content of every resolved file, in the order of
    the resolver. *)
Fixpoint readAll (read : string → Result string) (dir : string)
    (infos : list FileInfo) : Result (list Descriptor) :=
  match infos with
  | [] => Ok []
  | info :: rest =>
      match read (dir +:+ "/" +:+ Name info) with
      | Err e => Err e
      | Ok body =>
          match readAll read dir rest with
          | Err e => Err e
          | Ok ds => Ok (mkDescriptor (Name info) body :: ds)
          end
      end
  end.

(** Modelled from the spec: the state ResolveDescriptors of section 4.4;
    the orchestrator is not among the sources. The resolver it calls is
    [File.FindFilesForTarget]. *)
Definition resolveDescriptors (inv : Invocation) (target : string)
    : Kind * error + list Descriptor :=
  match FindFilesForTarget (directories inv) (range inv) "k8s" target with
  | Err e => inl (FilesystemError, e)
  | Ok [] =>
      inl (DescriptorNotFoundError,
           "no deployment descriptors found in k8s directory")
  | Ok infos =>
      match readAll (readFile inv) "k8s" infos with
      | Err e => inl (FilesystemError, e)
      | Ok ds => inr ds
      end
  end.

(** Modelled from the spec: the kind of a failure of the gateway, by the
    step that failed (sections 4.3 and 7); the orchestrator is not among
    the sources. *)
Definition kindOfStep (s : Step) : Kind :=
  match s with
  | Clone | Push => GitTransportError
  | Authenticate => CredentialError
  | Destination | Write | Stage | CreateCommit => FilesystemError
  end.

(** The terminal value of the pipeline, with the world it leaves and the
    side effects of the gateway. *)
Record PromotionResult : Type := mkResult {
  kind : Kind;
  logged : list string;
  world : World;
  effects : list Event
}.

Definition stop (w : World) (k : Kind) (lines : list string)
    : PromotionResult :=
  mkResult k lines w [].

(** Modelled from the spec: the state machine of section 4.4; [DoPromote]
    is not among the sources, only its test is. *)
Definition promote `{UnicodeTables} (inv : Invocation) (w : World)
    : PromotionResult :=
  match parsed inv with
  | HelpRequested => stop w HelpShown ["Usage:  <target>"]
  | VersionRequested => stop w VersionShown []
  | BadArguments e => stop w ArgumentError ["error: " +:+ e]
  | Arguments_ a =>
  match config inv with
  | Err e => stop w ConfigError [e]
  | Ok cfg =>
  match gitops cfg !! Target a with
  | None =>
      stop w TargetNotFoundError
        ["no gitops matching " +:+ Target a +:+ " found"]
  | Some configured =>
  if String.eqb (Commit (build inv)) "" || String.eqb (Branch (build inv)) ""
  then stop w UnidentifiedBuildError
         ["Commit and/or branch information is missing"]
  else
  match resolveDescriptors inv (Target a) with
  | inl (k, e) => stop w k [e]
  | inr ds =>
  let name := normalize (RawBuildName (build inv)) in
  let endpoint := resolveEndpoint a configured in
  if negb (String.eqb (Out a) "") then
    match writeOut inv (Out a) with
    | Some e => stop w FilesystemError ["generating..."; e]
    | None => stop w Success ["generating..."]
    end
  else
  let credentials := resolveCredentials (home inv) a (git cfg) in
  let r := Promote w endpoint credentials ds name (authorOf (git cfg))
             (commitMessage name (Commit (build inv))) in
  match outcome r with
  | Failed s e =>
      mkResult (kindOfStep s) ["generating..."; e] (after r) (trace r)
  | Finished o =>
      if pushed o then
        mkResult Success
          ["generating...";
           "pushing commit to " +:+ url endpoint +:+ "/"
           +:+ destination (path endpoint) name]
          (after r) (trace r)
      else mkResult NoOp ["generating..."] (after r) (trace r)
  end
  end
  end
  end
  end.

(** Modelled from the spec: [DoPromote], not among the sources, returns
    the exit code of the result. *)
Definition DoPromote `{UnicodeTables} (inv : Invocation) (w : World) : Z :=
  exitCode (kind (promote inv w)).

(** The invocation passed the first four states: the arguments and the
    configuration parsed, the target is configured as [configured], and the
    build is identified. *)
Definition identified (inv : Invocation) (a : Args) (cfg : Config)
    (configured : GitOpsEndpoint) : Prop :=
  parsed inv = Arguments_ a ∧ config inv = Ok cfg
  ∧ gitops cfg !! Target a = Some configured
  ∧ Commit (build inv) ≠ "" ∧ Branch (build inv) ≠ "".

(** The gateway run of an identified invocation. *)
Definition gatewayRun `{UnicodeTables} (inv : Invocation) (w : World) (a : Args)
    (cfg : Config) (configured : GitOpsEndpoint) (ds : list Descriptor)
    : Run :=
  let name := normalize (RawBuildName (build inv)) in
  Promote w (resolveEndpoint a configured)
    (resolveCredentials (home inv) a (git cfg)) ds name
    (authorOf (git cfg)) (commitMessage name (Commit (build inv))).

(** What fails after the build is identified: the descriptors do not
    resolve, the local output cannot be written, or the gateway fails. *)
Definition downstreamFailure `{UnicodeTables} (inv : Invocation) (w : World) (a : Args)
    (cfg : Config) (configured : GitOpsEndpoint) : Prop :=
  match resolveDescriptors inv (Target a) with
  | inl _ => True
  | inr ds =>
      if String.eqb (Out a) "" then
        ∃ s e, outcome (gatewayRun inv w a cfg configured ds) = Failed s e
      else is_Some (writeOut inv (Out a))
  end.

(** *** The fixtures of [TestDoPromote] *)

Definition repo : string := "/tmp/git-repo".
Definition otherrepo : string := "/tmp/other-repo".

(** [InitRepo]: one commit with the file [file]. *)
Definition initial : Gateway.Commit :=
  mkCommit {["file" := "test"]} "<test@example.com>" "Test".

(** Both repositories, the generated keys under [~/.ssh] and [~/other],
    and an environment in which nothing fails by itself. *)
Definition testWorld : World :=
  mkWorld {[repo := [initial]; otherrepo := [initial]]}
          {["/home/.ssh/id_rsa"; "/home/other/id_rsa"]}
          (λ _, None).

Definition descriptorBody : string := "kind: ConfigMap".

Definition withDescriptor : FileSystem := oneDir "k8s" ["descriptor.yaml"].
Definition emptyK8s : FileSystem := oneDir "k8s" [].
Definition missingK8s : FileSystem :=
  λ dir, Err ("open " +:+ dir +:+ ": no such file or directory").

Definition fromGitlab (project : string) : BuildIdentity :=
  mkBuild "abc123" "master" project.
Definition noCI : BuildIdentity := mkBuild "" "" "build-tools".

Definition onlyTarget (target : string) : Args :=
  mkArgs target "" "" "" "" "" "" "".

Definition noGit : GitConfig := mkGit "" "" "" "" "".
Definition someUser : GitConfig :=
  mkGit "Some User" "some.user@example.org" "" "" "".

Definition dummyAt (to : string) (g : GitConfig) : Config :=
  mkConfig {["dummy" := mkEndpoint to "" ""]} g.

Definition invocation (p : Parsed) (c : Result Config) (b : BuildIdentity)
    (fs : FileSystem) : Invocation :=
  mkInvocation p c b fs map_to_list (λ _, Ok descriptorBody) (λ _, None)
               "/home".

(** The rows of the test table. *)
Definition emptyConfig : Config := mkConfig ∅ noGit.

Definition invalidArgument : Invocation :=
  invocation (BadArguments "unknown flag --unknown") (Ok emptyConfig)
             noCI missingK8s.
Definition help : Invocation :=
  invocation HelpRequested (Err "yaml: unmarshal errors") noCI missingK8s.
Definition brokenConfig : Invocation :=
  invocation (Arguments_ (onlyTarget "dummy"))
             (Err "yaml: unmarshal errors") noCI missingK8s.
Definition missingTarget : Invocation :=
  invocation (Arguments_ (onlyTarget "dummy")) (Ok emptyConfig)
             noCI missingK8s.
Definition noCIRun : Invocation :=
  invocation (Arguments_ (onlyTarget "dummy")) (Ok (dummyAt "" noGit))
             noCI missingK8s.
Definition noDescriptors : Invocation :=
  invocation (Arguments_ (onlyTarget "dummy")) (Ok (dummyAt repo noGit))
             (fromGitlab "dummy") missingK8s.
Definition emptyDirectory : Invocation :=
  invocation (Arguments_ (onlyTarget "dummy")) (Ok (dummyAt repo noGit))
             (fromGitlab "dummy") emptyK8s.
Definition generationSuccessful : Invocation :=
  invocation (Arguments_ (onlyTarget "dummy")) (Ok (dummyAt repo someUser))
             (fromGitlab "dummy") withDescriptor.
Definition buildNameNormalized : Invocation :=
  invocation (Arguments_ (onlyTarget "dummy")) (Ok (dummyAt repo someUser))
             (fromGitlab "dummy_repo") withDescriptor.
Definition mixedCaseName : Invocation :=
  invocation (Arguments_ (onlyTarget "dummy")) (Ok (dummyAt repo someUser))
             (fromGitlab "Dummy_Repo") withDescriptor.
Definition otherRepoPathAndTag : Invocation :=
  invocation
    (Arguments_ (mkArgs "dummy" "testing" otherrepo "test/path" "" "" "" ""))
    (Ok (dummyAt repo noGit)) (fromGitlab "dummy") withDescriptor.
Definition otherKeyFromConfig : Invocation :=
  invocation (Arguments_ (onlyTarget "dummy"))
             (Ok (dummyAt repo (mkGit "" "" "" "~/other/id_rsa" "")))
             (fromGitlab "dummy") withDescriptor.
Definition cloneError : Invocation :=
  invocation (Arguments_ (mkArgs "dummy" "" "/missing/repo" "" "" "" "" ""))
             (Ok (dummyAt repo noGit)) (fromGitlab "dummy") withDescriptor.
Definition missingSSHKey : Invocation :=
  invocation (Arguments_ (mkArgs "dummy" "" "" "" "" "/missing/key" "" ""))
             (Ok (dummyAt repo noGit)) (fromGitlab "dummy") withDescriptor.

(** What a row of the table checks: the exit code, the last line logged and
    the commits added to [repo]. *)
Definition observed `{UnicodeTables} (inv : Invocation)
    : Z * option string * nat :=
  let r := promote inv testWorld in
  (exitCode (kind r), last (logged r), newCommits testWorld (world r) repo).

End Promote.

(** ** pkg/docker/testing.go: the docker client of the tests *)

Module Docker.

(** A call returns its values, the error being [None] for [nil], or it
    panics. *)
Inductive Returned (A : Type) : Type :=
  | Return (a : A) (err : option error)
  | Panicked.
Arguments Return {A} a err.
Arguments Panicked {A}.

(** [types.ImageBuildOptions], with the fields that [Build] sets. *)
Record ImageBuildOptions : Type := mkOptions {
  BuildArgs : gmap string string;
  Dockerfile : string;
  Memory : Z;
  MemorySwap : Z;
  Remove : bool;
  ShmSize : Z;
  Tags : list string
}.

(** [types.AuthConfig], with the fields that the client reads. *)
Record AuthConfig : Type := mkAuth {
  AuthUsername : string;
  AuthPassword : string;
  AuthServerAddress : string
}.

(** The interface [docker.Client], over the state of the client. A reader
    is the text it yields. *)
Class Client (C : Type) : Type := {
  clientImageBuild : C → string → ImageBuildOptions → C * Returned string;
  clientImagePush : C → string → C * Returned string;
  clientRegistryLogin : C → AuthConfig → C * Returned string
}.

Record MockDocker : Type := mkMock {
  Username : string;
  Password : string;
  ServerAddress : string;
  BuildContext : list string;
  BuildOptions : list ImageBuildOptions;
  Images : list string;
  LoginError : option error;
  BuildCount : Z;
  BuildError : list (option error);
  PushError : option error;
  PushOutput : option string;
  BrokenOutput : bool;
  ResponseError : option error
}.

(** The double quote, and a name or text between quotes. *)
Definition quote : string := String "034"%char EmptyString.

Definition quoted (s : string) : string := quote +:+ s +:+ quote.

(** [{"errorDetail":{"code":<code>,"message":"<msg>"}}] *)
Definition errorDetailBody (code msg : string) : string :=
  "{" +:+ quoted "errorDetail" +:+ ":{" +:+ quoted "code" +:+ ":" +:+ code
  +:+ "," +:+ quoted "message" +:+ ":" +:+ quoted msg +:+ "}}".

(** [{"stream":"Build successful"}] *)
Definition successBody : string :=
  "{" +:+ quoted "stream" +:+ ":" +:+ quoted "Build successful" +:+ "}".

(** [%v] of an error, [<nil>] for none, and of a slice of errors. *)
Definition showError (e : option error) : string :=
  match e with
  | Some msg => msg
  | None => "<nil>"
  end.

Fixpoint spaced (items : list string) : string :=
  match items with
  | [] => ""
  | [x] => x
  | x :: rest => x +:+ " " +:+ spaced rest
  end.

Definition showErrors (es : list (option error)) : string :=
  "[" +:+ spaced (showError <$> es) +:+ "]".

(** Go's [int], 64 bits wide: the values it holds, and what a sum becomes
    when it leaves them. *)
Definition isInt (z : Z) : Prop := (- 2 ^ 63 ≤ z < 2 ^ 63)%Z.

Definition wrapInt (z : Z) : Z := ((z + 2 ^ 63) mod 2 ^ 64 - 2 ^ 63)%Z.

(** The first two statements of [ImageBuild] and its deferred increment of
    [BuildCount], which wraps around at the largest [int]. *)
Definition recordBuild (m : MockDocker) (buildContext : string)
    (options : ImageBuildOptions) : MockDocker :=
  mkMock (Username m) (Password m) (ServerAddress m)
         (BuildContext m ++ [buildContext]) (BuildOptions m ++ [options])
         (Images m) (LoginError m) (wrapInt (BuildCount m + 1)) (BuildError m)
         (PushError m) (PushOutput m) (BrokenOutput m) (ResponseError m).

(** What [ImageBuild] returns: the body of the response and the error.
    [m.BuildError[m.BuildCount]] is read when
    [len(m.BuildError) > m.BuildCount], and panics for a negative count. *)
Definition buildResponse (m : MockDocker) : Returned string :=
  if BrokenOutput m then Return (errorDetailBody "0" "some message") None
  else
    match ResponseError m with
    | Some e => Return (errorDetailBody "123" e) None
    | None =>
        if (BuildCount m <? Z.of_nat (length (BuildError m)))%Z then
          if (BuildCount m <? 0)%Z then Panicked
          else
            match BuildError m !! Z.to_nat (BuildCount m) with
            | Some (Some e) =>
                Return (errorDetailBody "123" (showErrors (BuildError m)))
                       (Some e)
            | _ => Return successBody None
            end
        else Return successBody None
    end.

Definition ImageBuild (m : MockDocker) (buildContext : string)
    (options : ImageBuildOptions) : MockDocker * Returned string :=
  (recordBuild m buildContext options, buildResponse m).

(** [ImagePush]: the image is noted, then the error or the output is
    returned; [*m.PushOutput] panics when the pointer is [nil]. *)
Definition recordPush (m : MockDocker) (image : string) : MockDocker :=
  mkMock (Username m) (Password m) (ServerAddress m)
         (BuildContext m) (BuildOptions m) (Images m ++ [image])
         (LoginError m) (BuildCount m) (BuildError m)
         (PushError m) (PushOutput m) (BrokenOutput m) (ResponseError m).

Definition ImagePush (m : MockDocker) (image : string)
    : MockDocker * Returned string :=
  (recordPush m image,
   match PushError m with
   | Some e => Return "Push error" (Some e)
   | None =>
       match PushOutput m with
       | Some output => Return output None
       | None => Panicked
       end
   end).

(** [RegistryLogin]: the credentials are noted, then the status is
    returned with [m.LoginError]. *)
Definition recordLogin (m : MockDocker) (auth : AuthConfig) : MockDocker :=
  mkMock (AuthUsername auth) (AuthPassword auth) (AuthServerAddress auth)
         (BuildContext m) (BuildOptions m) (Images m)
         (LoginError m) (BuildCount m) (BuildError m)
         (PushError m) (PushOutput m) (BrokenOutput m) (ResponseError m).

Definition RegistryLogin (m : MockDocker) (auth : AuthConfig)
    : MockDocker * Returned string :=
  (recordLogin m auth,
   match LoginError m with
   | Some e => Return "Invalid username/password" (Some e)
   | None => Return "Logged in" None
   end).

(** [BuildCancel]: [panic("implement me")]. *)
Definition BuildCancel (m : MockDocker) (id : string)
    : MockDocker * Returned unit :=
  (m, Panicked).

(** [var _ Client = &MockDocker{}] *)
#[global] Instance MockDocker_Client : Client MockDocker := {
  clientImageBuild := ImageBuild;
  clientImagePush := ImagePush;
  clientRegistryLogin := RegistryLogin
}.

(** A client as the tests start from: nothing recorded, nothing failing. *)
Definition freshMock : MockDocker :=
  mkMock "" "" "" [] [] [] None 0 [] None None false None.

(** Successive builds and pushes on one client: the client afterwards and
    what each call returned. *)
Fixpoint builds (m : MockDocker) (calls : list (string * ImageBuildOptions))
    : MockDocker * list (Returned string) :=
  match calls with
  | [] => (m, [])
  | (buildContext, options) :: rest =>
      let (m1, r) := ImageBuild m buildContext options in
      let (m2, rs) := builds m1 rest in
      (m2, r :: rs)
  end.

Fixpoint pushes (m : MockDocker) (images : list string)
    : MockDocker * list (Returned string) :=
  match images with
  | [] => (m, [])
  | image :: rest =>
      let (m1, r) := ImagePush m image in
      let (m2, rs) := pushes m1 rest in
      (m2, r :: rs)
  end.

(** The error of a returned call. *)
Definition errorOf {A} (r : Returned A) : option error :=
  match r with
  | Return _ err => err
  | Panicked => None
  end.

End Docker.

(** ** The [build] package: building and tagging the image *)

Module Build.
Import Docker.

(** One line of the build response: [stream], [errorDetail] with its code
    and message, and [error]. *)
Record responsetype : Type := mkResponse {
  Stream : string;
  ErrorDetail : option (Z * string);
  Error : string
}.

(** What [json.Unmarshal(response, &r)] makes of a line: an error, a [nil]
    pointer for the JSON [null], or a value. *)
Inductive Decoded : Type :=
  | Malformed (e : error)
  | Null
  | Value (r : responsetype).

(** What the current CI reports. *)
Record CIValues : Type := mkCI {
  Commit : string;
  Branch : string;
  BranchReplaceSlash : string;
  BuildName : string
}.

(** The line feed. *)
Definition newline : string := String "010"%char EmptyString.

(** [%v] of an [int64]. *)
Definition showInt (z : Z) : string :=
  DecimalString.NilZero.string_of_int (Z.to_int z).

(** What a run of the scanner loop leaves: the error returned, if any, or a
    panic, and what was written to [out] and to [eout]. *)
Record Report : Type := mkReport {
  returned : Returned unit;
  out : list string;
  eout : list string
}.

(** The loop over the lines of the response. *)
Fixpoint respond (decode : string → Decoded) (lines : list string)
    (written errors : list string) : Report :=
  match lines with
  | [] => mkReport (Return () None) written errors
  | response :: rest =>
      match decode response with
      | Malformed e =>
          mkReport (Return () (Some e)) written
            (errors ++ ["Unable to parse response: " +:+ response
                        +:+ ", Error: " +:+ e +:+ newline])
      | Null => mkReport Panicked written errors
      | Value r =>
          match ErrorDetail r with
          | Some (code, msg) =>
              mkReport (Return () (Some msg)) written
                (errors ++ ["Code: " +:+ showInt code +:+ " Message: "
                            +:+ msg +:+ newline])
          | None => respond decode rest (written ++ [Stream r]) errors
          end
      end
  end.

Section build.
Context {C : Type} `{Client C}.

(** The registry of the configuration: its URL and its [Login], which
    works on the client and may write to [out]. *)
Record Registry : Type := mkRegistry {
  RegistryUrl : string;
  Login : C → C * list string * option error
}.

Record Config : Type := mkConfig {
  CurrentCI : CIValues;
  CurrentRegistry : Result Registry
}.

(** The collaborators of [Build]: the working directory, [config.Load],
    which may write to [out], [docker.Tag], the scanner that splits the
    response into lines, and [json.Unmarshal]. *)
Record Collaborators : Type := mkCollaborators {
  Getwd : string;
  Load : string → list string * Result Config;
  Tag : string → string → string → string;
  scan : string → list string;
  decode : string → Decoded
}.

(** The tags of the image: commit, branch, and [latest] on [master]. *)
Definition tagsOf (env : Collaborators) (registry : Registry)
    (ci : CIValues) : list string :=
  [Tag env (RegistryUrl registry) (BuildName ci) (Commit ci);
   Tag env (RegistryUrl registry) (BuildName ci) (BranchReplaceSlash ci)]
  ++ (if String.eqb (Branch ci) "master"
      then [Tag env (RegistryUrl registry) (BuildName ci) "latest"]
      else []).

Definition optionsOf (env : Collaborators) (registry : Registry)
    (ci : CIValues) (dockerfile : string) : ImageBuildOptions :=
  mkOptions
    {["CI_COMMIT" := Commit ci; "CI_BRANCH" := BranchReplaceSlash ci]}
    dockerfile (3 * 1024 * 1024 * 1024)%Z (-1)%Z true
    (256 * 1024 * 1024)%Z (tagsOf env registry ci).

(** What [Build] leaves: the client, the error or panic, and the output. *)
Record Built : Type := mkBuilt {
  client : C;
  report : Report
}.

(** [Build(client, buildContext, dockerfile, out, eout)] *)
Definition Build (env : Collaborators) (c : C) (buildContext dockerfile : string)
    : Built :=
  match Load env (Getwd env) with
  | (written, Err e) => mkBuilt c (mkReport (Return () (Some e)) written [])
  | (written, Ok cfg) =>
      match CurrentRegistry cfg with
      | Err e => mkBuilt c (mkReport (Return () (Some e)) written [])
      | Ok registry =>
          match Login registry c with
          | (c1, logged, Some e) =>
              mkBuilt c1
                (mkReport (Return () (Some e)) (written ++ logged) [])
          | (c1, logged, None) =>
              match clientImageBuild c1 buildContext
                      (optionsOf env registry (CurrentCI cfg) dockerfile)
              with
              | (c2, Panicked) =>
                  mkBuilt c2 (mkReport Panicked (written ++ logged) [])
              | (c2, Return body (Some e)) =>
                  mkBuilt c2
                    (mkReport (Return () (Some e)) (written ++ logged) [])
              | (c2, Return body None) =>
                  mkBuilt c2
                    (respond (decode env) (scan env body)
                       (written ++ logged) [])
              end
          end
      end
  end.

End build.

Arguments Registry C : clear implicits.
Arguments Config C : clear implicits.
Arguments Collaborators C : clear implicits.
Arguments Built C : clear implicits.

(** A line is clean when it decodes to a value without error detail. *)
Definition clean (decode : string → Decoded) (line : string) : Prop :=
  ∃ r, decode line = Value r ∧ ErrorDetail r = None.

(** The stream of a line, empty when the line does not decode. *)
Definition streamOf (decode : string → Decoded) (line : string) : string :=
  match decode line with
  | Value r => Stream r
  | _ => ""
  end.

(** What [respond] returns for the first line that is not clean. *)
Definition verdict (decode : string → Decoded) (line : string)
    : Returned unit :=
  match decode line with
  | Malformed e => Return () (Some e)
  | Null => Panicked
  | Value r =>
      match ErrorDetail r with
      | Some (_, msg) => Return () (Some msg)
      | None => Return () None
      end
  end.

End Build.

(** ** Sample directories, clients and collaborators *)

Module Samples.
Import File Docker Build.

(** The sample directory with its entries listed backwards. *)
Definition sampleDirBackwards : FileSystem := oneDir "k8s" (reverse sampleNames).

(** A directory of descriptors and a directory of scripts. *)
Definition twoDirs : FileSystem :=
  λ dir, if String.eqb dir "k8s" then Ok (entry <$> sampleNames)
         else if String.eqb dir "deploy"
              then Ok (entry <$> ["setup.sh"; "setup-prod.sh"])
              else Err ("open " +:+ dir +:+ ": no such file or directory").

(** What the resolver returns for [prod], as a directory of its own. *)
Definition resolvedDir : FileSystem := oneDir "out" ["a-prod.yaml"; "b.yaml"].

(** An override for the target [eu-prod]. *)
Definition regionalDir : FileSystem := oneDir "k8s" ["svc-eu-prod.yaml"].

(** A client with an error scheduled for its second build, and one that
    answers every build with an error. *)
Definition secondFails : MockDocker :=
  mkMock "" "" "" [] [] [] None 0 [None; Some "build failed"]
         None None false None.

Definition firstFails : MockDocker :=
  mkMock "" "" "" [] [] [] None 0 [Some "build failed"]
         None None false None.

Definition answersError : MockDocker :=
  mkMock "" "" "" [] [] [] None 0 [] None None false (Some "no space left").

Definition plainOptions : ImageBuildOptions :=
  mkOptions ∅ "Dockerfile" 0 0 true 0 [].

(** A decoder that knows the bodies of the client of the tests. *)
Definition sampleDecode (line : string) : Decoded :=
  if String.eqb line successBody
  then Value (mkResponse "Build successful" None "")
  else if String.eqb line (errorDetailBody "123" "no space left")
  then Value (mkResponse "" (Some (123%Z, "no space left")) "")
  else if String.eqb line "null" then Null
  else Malformed "invalid character".

Definition sampleCI : CIValues := mkCI "abc123" "master" "master" "app".

(** A registry whose [Login] logs in to the client. *)
Definition sampleRegistry : Registry MockDocker :=
  mkRegistry "repo.example.org"
    (λ m, let (m1, r) :=
            RegistryLogin m (mkAuth "user" "secret" "repo.example.org") in
          (m1, [], errorOf r)).

Definition sampleEnv : Collaborators MockDocker :=
  mkCollaborators "/build/app"
    (λ _, ([], Ok (mkConfig sampleCI (Ok sampleRegistry))))
    (λ registry name tag, registry +:+ "/" +:+ name +:+ ":" +:+ tag)
    (λ body, [body])
    sampleDecode.

End Samples.

(** ** Facts about the string functions *)

Module GoStringsFacts.
Import GoStrings.

Lemma str_app_nil_l (s : string) : "" +:+ s = s.
Proof. reflexivity. Qed.

Lemma str_app_cons (c : ascii) (s t : string) :
  String c s +:+ t = String c (s +:+ t).
Proof. reflexivity. Qed.

Lemma str_app_nil_r (s : string) : s +:+ "" = s.
Proof. induction s as [|c s IH]; [done|]. by rewrite str_app_cons, IH. Qed.

Lemma str_app_assoc (a b c : string) : (a +:+ b) +:+ c = a +:+ b +:+ c.
Proof.
  induction a as [|x a IH]; [done|]. by rewrite !str_app_cons, IH.
Qed.

Lemma str_length_app (a b : string) :
  String.length (a +:+ b) = String.length a + String.length b.
Proof.
  induction a as [|x a IH]; [done|]. rewrite str_app_cons. simpl. by rewrite IH.
Qed.

Lemma substring_0_length (s : string) :
  String.substring 0 (String.length s) s = s.
Proof. induction s as [|c s IH]; [done|]. simpl. by rewrite IH. Qed.

Lemma substring_0_app (p s : string) :
  String.substring 0 (String.length p) (p +:+ s) = p.
Proof.
  induction p as [|c p IH]; [by destruct s|].
  rewrite str_app_cons. simpl. by rewrite IH.
Qed.

Lemma substring_skip_app (p s : string) (n : nat) :
  String.substring (String.length p) n (p +:+ s) = String.substring 0 n s.
Proof. induction p as [|c p IH]; [done|]. by rewrite str_app_cons. Qed.

Lemma substring_split (s : string) (n : nat) :
  n ≤ String.length s →
  s = String.substring 0 n s
      +:+ String.substring n (String.length s - n) s.
Proof.
  revert n. induction s as [|c s IH]; intros [|n] Hn; simpl in *.
  - done.
  - lia.
  - rewrite str_app_nil_l. by rewrite substring_0_length.
  - rewrite str_app_cons. f_equal. apply IH. lia.
Qed.

Lemma length_substring_0 (s : string) (n : nat) :
  n ≤ String.length s → String.length (String.substring 0 n s) = n.
Proof.
  revert n. induction s as [|c s IH]; intros [|n] Hn; simpl in *;
    try done; try lia.
  rewrite IH; lia.
Qed.

(** [HasSuffix] holds exactly of the strings that end with [suffix]. *)
Lemma HasSuffix_spec (s suffix : string) :
  HasSuffix s suffix = true ↔ ∃ p, s = p +:+ suffix.
Proof.
  unfold HasSuffix. rewrite andb_true_iff, Nat.leb_le, String.eqb_eq. split.
  - intros [Hlen Hsub].
    exists (String.substring 0 (String.length s - String.length suffix) s).
    pose proof (substring_split s (String.length s - String.length suffix))
      as Hs.
    replace (String.length s - (String.length s - String.length suffix))
      with (String.length suffix) in Hs by lia.
    rewrite Hsub in Hs. apply Hs. lia.
  - intros [p ->]. rewrite str_length_app. split; [lia|].
    replace (String.length p + String.length suffix - String.length suffix)
      with (String.length p) by lia.
    by rewrite substring_skip_app, substring_0_length.
Qed.

Lemma HasSuffix_app (p suffix : string) : HasSuffix (p +:+ suffix) suffix = true.
Proof. apply HasSuffix_spec. by exists p. Qed.

Lemma HasSuffix_weaken (s a b : string) :
  HasSuffix s (a +:+ b) = true → HasSuffix s b = true.
Proof.
  rewrite !HasSuffix_spec. intros [p ->]. exists (p +:+ a).
  by rewrite str_app_assoc.
Qed.

(** [TrimSuffix] gives back the stem of a name built with the suffix. *)
Lemma TrimSuffix_app (p suffix : string) : TrimSuffix (p +:+ suffix) suffix = p.
Proof.
  unfold TrimSuffix. rewrite HasSuffix_app, str_length_app.
  replace (String.length p + String.length suffix - String.length suffix)
    with (String.length p) by lia.
  apply substring_0_app.
Qed.

Lemma TrimSuffix_stem (s suffix : string) :
  HasSuffix s suffix = true → s = TrimSuffix s suffix +:+ suffix.
Proof.
  intros H. destruct (proj1 (HasSuffix_spec _ _) H) as [p ->].
  by rewrite TrimSuffix_app.
Qed.

Lemma prefix_spec (p s : string) :
  String.prefix p s = true ↔ ∃ q, s = p +:+ q.
Proof.
  revert s. induction p as [|c p IH]; intros s.
  - split; [intros _; by exists s|]. by destruct s.
  - destruct s as [|d s]; simpl.
    + split; [done|]. intros [q Hq]. by rewrite str_app_cons in Hq.
    + destruct (ascii_dec c d) as [->|Hne].
      * rewrite IH. split; intros [q Hq]; exists q.
        -- by rewrite str_app_cons, <- Hq.
        -- rewrite str_app_cons in Hq. by simplify_eq.
      * split; [done|]. intros [q Hq]. rewrite str_app_cons in Hq.
        by simplify_eq.
Qed.

Lemma Index_unfold (s substr : string) :
  Index s substr =
  if String.prefix substr s then Some 0
  else match s with
       | EmptyString => None
       | String _ s' => S <$> Index s' substr
       end.
Proof. by destruct s. Qed.

(** [Contains] holds exactly of the strings with [substr] somewhere inside. *)
Lemma Contains_spec (s substr : string) :
  Contains s substr = true ↔ ∃ p q, s = p +:+ substr +:+ q.
Proof.
  unfold Contains. induction s as [|c s IH]; rewrite Index_unfold.
  - destruct (String.prefix substr "") eqn:Hp.
    + split; [|done]. intros _. apply prefix_spec in Hp as [q Hq].
      by exists "", q.
    + split; [done|]. intros ([|x p] & q & Hq); [|by rewrite str_app_cons in Hq].
      assert (String.prefix substr "" = true) as Ht
        by (apply prefix_spec; by exists q).
      congruence.
  - destruct (String.prefix substr (String c s)) eqn:Hp.
    + split; [|done]. intros _. apply prefix_spec in Hp as [q Hq].
      by exists "", q.
    + destruct (Index s substr) as [i|] eqn:Hi; simpl.
      * split; [|done]. intros _.
        destruct (proj1 IH eq_refl) as (p & q & ->).
        by exists (String c p), q.
      * split; [done|]. intros ([|x p] & q & Hq).
        -- assert (String.prefix substr (String c s) = true) as Ht
             by (apply prefix_spec; by exists q).
           congruence.
        -- rewrite str_app_cons in Hq. simplify_eq.
           assert (false = true) as Hf by (apply IH; by exists p, q).
           done.
Qed.

Lemma Contains_app_mid (p q sep : string) : Contains (p +:+ sep +:+ q) sep = true.
Proof. apply Contains_spec. by exists p, q. Qed.

End GoStringsFacts.

(** ** Facts about the file resolver *)

Module FileFacts.
Import GoStrings GoStringsFacts File.

Lemma consider_unfold target suffix matching info :
  consider target suffix matching info =
  if candidate target suffix (Name info)
  then <[Name info := info]> matching else matching.
Proof.
  unfold consider, candidate. by destruct (HasSuffix (Name info) suffix).
Qed.

Section collect.
Context (target suffix : string).

Lemma foldl_consider_lookup files (m : gmap string FileInfo) k v :
  foldl (consider target suffix) m files !! k = Some v →
  m !! k = Some v
  ∨ (v ∈ files ∧ Name v = k ∧ candidate target suffix k = true).
Proof.
  revert m. induction files as [|info files IH]; intros m; simpl; [auto|].
  intros [Hm|(?&?&?)]%IH; [|right; split_and!; try done; by right].
  rewrite consider_unfold in Hm.
  destruct (candidate target suffix (Name info)) eqn:Hc; [|auto].
  destruct (decide (Name info = k)) as [<-|Hne].
  - rewrite lookup_insert_eq in Hm. simplify_eq. right.
    split_and!; try done. by left.
  - rewrite lookup_insert_ne in Hm by done. auto.
Qed.

Lemma foldl_consider_is_Some files (m : gmap string FileInfo) k :
  is_Some (foldl (consider target suffix) m files !! k) ↔
  is_Some (m !! k)
  ∨ (k ∈ Name <$> files ∧ candidate target suffix k = true).
Proof.
  revert m. induction files as [|info files IH]; intros m; simpl.
  - split; [auto|]. intros [?|[?%elem_of_nil ?]]; done.
  - rewrite IH, consider_unfold, elem_of_cons. clear IH.
    destruct (candidate target suffix (Name info)) eqn:Hc.
    + rewrite lookup_insert_is_Some. split.
      * intros [[<-|[? ?]]|[? ?]]; auto.
      * intros [?|[[->|?] ?]]; auto.
        destruct (decide (Name info = k)); auto.
    + split; [intros [?|[? ?]]; auto|].
      intros [?|[[->|?] ?]]; auto. congruence.
Qed.

Lemma collect_lookup files k v :
  collect target suffix files !! k = Some v →
  v ∈ files ∧ Name v = k ∧ candidate target suffix k = true.
Proof.
  intros [Hm|?]%foldl_consider_lookup; [|done].
  by rewrite lookup_empty in Hm.
Qed.

(** The candidates are the names of the listing that pass the test. *)
Lemma collect_is_Some files k :
  is_Some (collect target suffix files !! k) ↔
  k ∈ Name <$> files ∧ candidate target suffix k = true.
Proof.
  unfold collect. rewrite foldl_consider_is_Some, lookup_empty.
  split; [intros [[? ?]|?]; done|auto].
Qed.

Lemma collect_keyed files : keyed (collect target suffix files).
Proof. intros k v Hkv. by apply collect_lookup in Hkv as (_&?&_). Qed.

(** A name with the target's suffix is a candidate as soon as it is listed. *)
Lemma candidate_targeted k :
  HasSuffix k (targetSuffix target suffix) = true →
  candidate target suffix k = true.
Proof.
  intros Hk. unfold candidate. rewrite Hk, orb_true_l, andb_true_r.
  unfold targetSuffix in Hk. rewrite <- str_app_assoc in Hk.
  by apply HasSuffix_weaken in Hk.
Qed.

(** A candidate that lacks the target's suffix has no dash at all. *)
Lemma candidate_bare k :
  candidate target suffix k = true →
  HasSuffix k (targetSuffix target suffix) = false →
  HasSuffix k suffix = true ∧ Contains k "-" = false.
Proof.
  unfold candidate. intros [? Hor]%andb_true_iff Hk.
  rewrite Hk, orb_false_l, negb_true_iff in Hor. done.
Qed.

End collect.

(** The second loop keeps the values whose keys pass [used], in the order
    of the iteration. *)
Lemma selectFrom_filter target suffix matching kvs :
  selectFrom target suffix matching kvs =
  (filter (λ kv, used target suffix matching kv.1 = true) kvs).*2.
Proof.
  unfold selectFrom.
  enough (∀ acc,
    foldl (λ result kv,
             if used target suffix matching kv.1
             then result ++ [kv.2] else result) acc kvs
    = acc ++ (filter (λ kv, used target suffix matching kv.1 = true) kvs).*2)
    as H by apply (H []).
  induction kvs as [|kv kvs IH]; intros acc; simpl.
  - by rewrite app_nil_r.
  - rewrite IH, filter_cons.
    destruct (used target suffix matching kv.1) eqn:Hu.
    + rewrite decide_True by done. by rewrite <- app_assoc.
    + rewrite decide_False by done. done.
Qed.

Lemma selectFrom_Permutation target suffix matching kvs1 kvs2 :
  kvs1 ≡ₚ kvs2 →
  selectFrom target suffix matching kvs1
  ≡ₚ selectFrom target suffix matching kvs2.
Proof. intros H. rewrite !selectFrom_filter. by rewrite H. Qed.

Lemma elem_of_selectFrom target suffix (matching : gmap string FileInfo) fi :
  fi ∈ selectFrom target suffix matching (map_to_list matching) ↔
  ∃ k, matching !! k = Some fi ∧ used target suffix matching k = true.
Proof.
  rewrite selectFrom_filter, list_elem_of_fmap. split.
  - intros ([k v] & -> & [Hu Hin]%list_elem_of_filter).
    exists k. by apply elem_of_map_to_list in Hin.
  - intros (k & Hk & Hu). exists (k, fi). split; [done|].
    apply list_elem_of_filter. split; [done|]. by apply elem_of_map_to_list.
Qed.

Lemma NoDup_fst_filter {A B} (P : A * B → Prop) `{∀ x, Decision (P x)}
    (l : list (A * B)) :
  NoDup l.*1 → NoDup (filter P l).*1.
Proof.
  induction l as [|x l IH]; [done|]. rewrite fmap_cons, NoDup_cons.
  intros [Hx Hl]. rewrite filter_cons. destruct (decide (P x)); [|auto].
  rewrite fmap_cons, NoDup_cons. split; [|auto].
  intros (y & Hxy & [_ Hy]%list_elem_of_filter)%list_elem_of_fmap.
  apply Hx, list_elem_of_fmap. eauto.
Qed.


(** *** The order of [sort.Slice] *)

Lemma notAfter_le a b : notAfter a b ↔ String.le (Name a) (Name b).
Proof.
  unfold notAfter, less, String.le, String.ltb, String.leb.
  rewrite (String.compare_antisym (Name b) (Name a)).
  destruct (String.compare (Name a) (Name b)); simpl; naive_solver.
Qed.

#[local] Instance notAfter_trans : Transitive notAfter.
Proof. intros a b c. rewrite !notAfter_le. apply transitivity. Qed.

#[local] Instance notAfter_total : Total notAfter.
Proof. intros a b. rewrite !notAfter_le. apply total, _. Qed.

Lemma notAfter_antisym a b : notAfter a b → notAfter b a → Name a = Name b.
Proof. rewrite !notAfter_le. apply anti_symm, _. Qed.

Lemma notAfter_before a b :
  notAfter a b → Name a ≠ Name b → before (Name a) (Name b).
Proof.
  unfold notAfter, less, before, String.ltb. intros Hab Hne.
  rewrite (String.compare_antisym (Name b) (Name a)) in Hab.
  destruct (String.compare (Name a) (Name b)) eqn:Hc; try done.
  apply String.compare_eq_iff in Hc. congruence.
Qed.

Lemma sortSlice_Permutation l : sortSlice l ≡ₚ l.
Proof. apply merge_sort_Permutation. Qed.

Lemma sortSlice_sorted l : StronglySorted notAfter (sortSlice l).
Proof. apply StronglySorted_merge_sort; apply _. Qed.

(** A sorted list with pairwise different names is strictly increasing. *)
Lemma sorted_names_strict l :
  StronglySorted notAfter l → NoDup (Name <$> l) →
  StronglySorted before (Name <$> l).
Proof.
  induction 1 as [|a l Hl IH Ha]; [constructor|].
  rewrite fmap_cons, NoDup_cons. intros [Hnot Hnd].
  constructor; [auto|]. apply Forall_fmap, Forall_forall.
  intros b Hb. simpl. apply notAfter_before.
  - by eapply Forall_forall in Ha.
  - intros Heq. apply Hnot, list_elem_of_fmap. eauto.
Qed.

Lemma names_determine (l : list FileInfo) x y :
  NoDup (Name <$> l) → x ∈ l → y ∈ l → Name x = Name y → x = y.
Proof.
  induction l as [|a l IH]; intros Hnd Hx Hy Heq.
  - by apply elem_of_nil in Hx.
  - rewrite fmap_cons, NoDup_cons in Hnd. destruct Hnd as [Hfresh Hnd].
    apply elem_of_cons in Hx as [->|Hx]; apply elem_of_cons in Hy as [->|Hy];
      auto.
    + exfalso. apply Hfresh. rewrite Heq. apply list_elem_of_fmap; eauto.
    + exfalso. apply Hfresh. rewrite <- Heq. apply list_elem_of_fmap; eauto.
Qed.

(** Entries with different names have one sorted arrangement only, so
    the result does not depend on how [sort.Slice] sorts. *)
Lemma sorted_arrangement_unique (l l' : list FileInfo) :
  NoDup (Name <$> l) → l' ≡ₚ l → StronglySorted notAfter l' →
  l' = sortSlice l.
Proof.
  intros Hnd Hperm Hsorted.
  apply (StronglySorted_unique_strong notAfter);
    [|done|apply sortSlice_sorted|by rewrite sortSlice_Permutation].
  intros x1 x2 Hx1 Hx2 H12 H21.
  rewrite Hperm in Hx1. rewrite sortSlice_Permutation in Hx2.
  apply (names_determine l); auto using notAfter_antisym.
Qed.

(** *** What a run of [filesForTarget] returns *)

Section run.
Context (fs : FileSystem) (range : Schedule).
Context (dir target filetype suffix : string).
Hypothesis range_fair : fair range.

Lemma run_Ok files :
  fs dir = Ok files →
  ∃ res, filesForTarget fs range dir target filetype suffix = Ok res
         ∧ res ≡ₚ chosen target suffix files ∧ StronglySorted notAfter res.
Proof.
  intros Hfs. unfold filesForTarget. rewrite Hfs. eexists. split; [done|].
  split; [|apply sortSlice_sorted].
  rewrite sortSlice_Permutation. apply selectFrom_Permutation, range_fair.
Qed.

Lemma run_inv res :
  filesForTarget fs range dir target filetype suffix = Ok res →
  ∃ files, fs dir = Ok files
           ∧ res ≡ₚ chosen target suffix files ∧ StronglySorted notAfter res.
Proof.
  intros Hres. destruct (fs dir) as [files|e] eqn:Hfs.
  - exists files. split; [done|].
    destruct (run_Ok files Hfs) as (res' & Hres' & ? & ?).
    rewrite Hres in Hres'. simplify_eq. by split.
  - unfold filesForTarget in Hres. by rewrite Hfs in Hres.
Qed.

Lemma elem_of_chosen files fi :
  fi ∈ chosen target suffix files ↔
  ∃ k, collect target suffix files !! k = Some fi
       ∧ used target suffix (collect target suffix files) k = true.
Proof. apply elem_of_selectFrom. Qed.

Lemma chosen_names files :
  Name <$> chosen target suffix files
  = (filter (λ kv, used target suffix (collect target suffix files) kv.1
                   = true)
            (map_to_list (collect target suffix files))).*1.
Proof.
  unfold chosen. cbv zeta. rewrite selectFrom_filter, <- list_fmap_compose.
  apply list_fmap_ext. intros i [k v] Hi. simpl.
  apply list_elem_of_lookup_2, list_elem_of_filter in Hi as [_ Hi].
  apply elem_of_map_to_list in Hi. by apply collect_keyed in Hi.
Qed.

Lemma chosen_NoDup files : NoDup (Name <$> chosen target suffix files).
Proof.
  rewrite chosen_names. apply NoDup_fst_filter, NoDup_fst_map_to_list.
Qed.

End run.

(** *** The override rule *)

Section rule.
Context (target suffix : string) (files : list FileInfo).
Let matching := collect target suffix files.

(** A name that ends with the target's suffix holds a dash. *)
Lemma targeted_has_dash k :
  HasSuffix k (targetSuffix target suffix) = true → Contains k "-" = true.
Proof.
  intros [p ->]%HasSuffix_spec. unfold targetSuffix.
  apply Contains_app_mid.
Qed.

Lemma used_targeted k :
  HasSuffix k (targetSuffix target suffix) = true →
  used target suffix matching k = true.
Proof. intros Hk. unfold used. by rewrite Hk. Qed.

Lemma used_bare X :
  Contains (X +:+ suffix) "-" = false →
  used target suffix matching (X +:+ suffix) = true ↔
  matching !! (X +:+ "-" +:+ target +:+ suffix) = None.
Proof.
  intros Hdash. unfold used, overrideName.
  destruct (HasSuffix (X +:+ suffix) (targetSuffix target suffix)) eqn:Hk.
  { apply targeted_has_dash in Hk. congruence. }
  by rewrite TrimSuffix_app, bool_decide_eq_true.
Qed.

Lemma overrideName_targeted k :
  HasSuffix (overrideName k target suffix) (targetSuffix target suffix) = true.
Proof. apply HasSuffix_app. Qed.

(** Nothing is chosen only when there is no candidate at all. *)
Lemma chosen_nil : chosen target suffix files = [] ↔ matching = ∅.
Proof.
  split.
  - intros Hnil. apply map_empty. intros k.
    destruct (matching !! k) as [v|] eqn:Hk; [exfalso|done].
    assert (∀ fi, fi ∉ chosen target suffix files) as Hnone.
    { intros fi. rewrite Hnil. apply not_elem_of_nil. }
    destruct (HasSuffix k (targetSuffix target suffix)) eqn:Ht.
    { apply (Hnone v), elem_of_chosen. exists k. split; [done|].
      by apply used_targeted. }
    destruct (matching !! overrideName k target suffix) as [v'|] eqn:Ho.
    + apply (Hnone v'), elem_of_chosen. eexists. split; [exact Ho|].
      apply used_targeted, overrideName_targeted.
    + apply (Hnone v), elem_of_chosen. exists k. split; [done|].
      unfold used. rewrite Ht. by apply bool_decide_eq_true.
  - intros Hempty. unfold chosen. fold matching.
    by rewrite Hempty, map_to_list_empty.
Qed.

Lemma collect_empty :
  matching = ∅ ↔ ∀ fi, fi ∈ files → candidate target suffix (Name fi) = false.
Proof.
  split.
  - intros Hempty fi Hfi.
    destruct (candidate target suffix (Name fi)) eqn:Hc; [exfalso|done].
    assert (is_Some (matching !! Name fi)) as [v Hv].
    { apply collect_is_Some. split; [|done]. apply list_elem_of_fmap. eauto. }
    by rewrite Hempty, lookup_empty in Hv.
  - intros Hnone. apply map_empty. intros k.
    destruct (matching !! k) as [v|] eqn:Hk; [exfalso|done].
    apply collect_lookup in Hk as (Hv & <- & Hc).
    apply Hnone in Hv. congruence.
Qed.

End rule.

(** C3: a name with a dash that does not end with [-<target><suffix>]
    belongs to another target and is never returned. *)
Theorem filesForTarget_excludes_other_targets
    (fs : FileSystem) (range : Schedule)
    (dir target filetype suffix : string)
    (res : list FileInfo) (fi : FileInfo) :
  fair range →
  filesForTarget fs range dir target filetype suffix = Ok res →
  Contains (Name fi) "-" = true →
  HasSuffix (Name fi) (targetSuffix target suffix) = false →
  fi ∉ res.
Proof.
  intros Hfair Hres Hdash Ht Hin.
  destruct (run_inv fs range dir target filetype suffix Hfair res Hres)
    as (files & _ & Hperm & _).
  rewrite Hperm in Hin. apply elem_of_chosen in Hin as (k & Hk & _).
  apply collect_lookup in Hk as (_ & <- & Hc).
  destruct (candidate_bare target suffix _ Hc Ht) as [_ ?]. congruence.
Qed.

(** C7: whatever order the map is ranged over, the same sequence comes
    back, and it is sorted by file name. *)
Theorem filesForTarget_deterministic
    (fs : FileSystem) (range1 range2 : Schedule)
    (dir target filetype suffix : string) :
  fair range1 → fair range2 →
  filesForTarget fs range1 dir target filetype suffix
  = filesForTarget fs range2 dir target filetype suffix
  ∧ ∀ res, filesForTarget fs range1 dir target filetype suffix = Ok res →
           StronglySorted before (Name <$> res).
Proof.
  intros Hfair1 Hfair2. split.
  - destruct (fs dir) as [files|e] eqn:Hfs.
    + destruct (run_Ok fs range1 dir target filetype suffix Hfair1 files Hfs)
        as (res1 & -> & Hperm1 & Hsort1).
      destruct (run_Ok fs range2 dir target filetype suffix Hfair2 files Hfs)
        as (res2 & -> & Hperm2 & Hsort2).
      f_equal. apply (StronglySorted_unique_strong notAfter); try done.
      * intros x1 x2 Hx1 Hx2 H12 H21.
        rewrite Hperm1 in Hx1. rewrite Hperm2 in Hx2.
        apply elem_of_chosen in Hx1 as (k1 & Hk1 & _).
        apply elem_of_chosen in Hx2 as (k2 & Hk2 & _).
        pose proof (notAfter_antisym _ _ H12 H21) as Hname.
        apply collect_keyed in Hk1 as Hn1. apply collect_keyed in Hk2 as Hn2.
        congruence.
      * by rewrite Hperm1, Hperm2.
    + unfold filesForTarget. by rewrite Hfs.
  - intros res Hres.
    destruct (run_inv fs range1 dir target filetype suffix Hfair1 res Hres)
      as (files & _ & Hperm & Hsort).
    apply sorted_names_strict; [done|].
    rewrite Hperm. apply chosen_NoDup.
Qed.

(** C8: the only error is the error of reading the directory, handed on
    as it is; a readable directory always gives a list, and the list is
    empty when the directory has no candidate. *)
Theorem filesForTarget_error_iff
    (fs : FileSystem) (range : Schedule)
    (dir target filetype suffix : string) :
  (∀ e, filesForTarget fs range dir target filetype suffix = Err e
        ↔ fs dir = Err e)
  ∧ (∀ files, fs dir = Ok files →
       ∃ res, filesForTarget fs range dir target filetype suffix = Ok res)
  ∧ (fair range → ∀ files, fs dir = Ok files →
       (filesForTarget fs range dir target filetype suffix = Ok []
        ↔ ∀ fi, fi ∈ files → candidate target suffix (Name fi) = false)).
Proof.
  split_and!.
  - intros e. unfold filesForTarget. destruct (fs dir); naive_solver.
  - intros files Hfs. unfold filesForTarget. rewrite Hfs. eauto.
  - intros Hfair files Hfs.
    destruct (run_Ok fs range dir target filetype suffix Hfair files Hfs)
      as (res & -> & Hperm & _).
    rewrite <- collect_empty, <- chosen_nil. split.
    + intros [= ->]. symmetry in Hperm. by apply Permutation_nil_r in Hperm.
    + intros Hnil. rewrite Hnil in Hperm.
      apply Permutation_nil_r in Hperm. by rewrite Hperm.
Qed.

(** C10: every returned name ends with the kind's suffix, and no name is
    returned twice. *)
Theorem filesForTarget_suffix_and_distinct
    (fs : FileSystem) (range : Schedule)
    (dir target filetype suffix : string) (res : list FileInfo) :
  fair range →
  filesForTarget fs range dir target filetype suffix = Ok res →
  (∀ fi, fi ∈ res → HasSuffix (Name fi) suffix = true)
  ∧ NoDup (Name <$> res).
Proof.
  intros Hfair Hres.
  destruct (run_inv fs range dir target filetype suffix Hfair res Hres)
    as (files & _ & Hperm & _).
  split.
  - intros fi Hin. rewrite Hperm in Hin.
    apply elem_of_chosen in Hin as (k & Hk & _).
    apply collect_lookup in Hk as (_ & <- & Hc).
    unfold candidate in Hc. by apply andb_true_iff in Hc as [? _].
  - rewrite Hperm. apply chosen_NoDup.
Qed.

(** *** The resolver on a sample directory *)

Lemma forwards_fair : fair map_to_list.
Proof. intros m. reflexivity. Qed.

Lemma backwards_fair : fair backwards.
Proof. intros m. apply reverse_Permutation. Qed.

Example sample_prod :
  names (FindFilesForTarget sampleDir map_to_list "k8s" "prod")
  = Ok ["a-prod.yaml"; "b.yaml"].
Proof. vm_compute. reflexivity. Qed.

Example sample_staging :
  names (FindFilesForTarget sampleDir backwards "k8s" "staging")
  = Ok ["a.yaml"; "b.yaml"].
Proof. vm_compute. reflexivity. Qed.

Example sample_other_only :
  names (FindFilesForTarget (oneDir "k8s" ["x-other.yaml"])
           map_to_list "k8s" "mine")
  = Ok [].
Proof. vm_compute. reflexivity. Qed.

Example sample_scripts :
  names (FindScriptsForTarget
           (oneDir "deploy" ["setup.sh"; "setup-prod.sh"; "notes.txt"])
           backwards "deploy" "prod")
  = Ok ["setup-prod.sh"].
Proof. vm_compute. reflexivity. Qed.

Lemma filesForTarget_excludes_other_targets_witness :
  entry "x-other.yaml" ∉ [entry "a-prod.yaml"; entry "b.yaml"].
Proof.
  apply (filesForTarget_excludes_other_targets sampleDir map_to_list
           "k8s" "prod" "file" ".yaml").
  - intros m. reflexivity.
  - vm_compute. reflexivity.
  - reflexivity.
  - reflexivity.
Defined.

Lemma filesForTarget_deterministic_witness :
  filesForTarget sampleDir map_to_list "k8s" "prod" "file" ".yaml"
  = filesForTarget sampleDir backwards "k8s" "prod" "file" ".yaml"
  ∧ ∀ res,
      filesForTarget sampleDir map_to_list "k8s" "prod" "file" ".yaml"
      = Ok res →
      StronglySorted before (Name <$> res).
Proof.
  apply (filesForTarget_deterministic sampleDir map_to_list backwards).
  - intros m. reflexivity.
  - intros m. apply reverse_Permutation.
Defined.

Lemma filesForTarget_error_iff_witness :
  filesForTarget (oneDir "k8s" ["readme.md"; "x-other.yaml"]) map_to_list
    "k8s" "mine" "file" ".yaml" = Ok [].
Proof.
  destruct (filesForTarget_error_iff
              (oneDir "k8s" ["readme.md"; "x-other.yaml"]) map_to_list
              "k8s" "mine" "file" ".yaml") as (_ & _ & Hempty).
  apply (Hempty forwards_fair (entry <$> ["readme.md"; "x-other.yaml"])).
  - reflexivity.
  - intros fi Hfi.
    repeat (apply elem_of_cons in Hfi as [->|Hfi]; [reflexivity|]).
    by apply elem_of_nil in Hfi.
Defined.

Lemma filesForTarget_suffix_and_distinct_witness :
  (∀ fi, fi ∈ [entry "a-prod.yaml"; entry "b.yaml"] →
         HasSuffix (Name fi) ".yaml" = true)
  ∧ NoDup (Name <$> [entry "a-prod.yaml"; entry "b.yaml"]).
Proof.
  apply (filesForTarget_suffix_and_distinct sampleDir map_to_list
           "k8s" "prod" "file" ".yaml").
  - intros m. reflexivity.
  - vm_compute. reflexivity.
Defined.

End FileFacts.

(** ** Facts about CI provider detection *)

Module CIFacts.
Import GoStrings FilePath CI.

Lemma probe_Some identify (rest : list Provider) ci :
  probe identify rest = Some ci ↔
  ∃ skipped later,
    rest = skipped ++ ci :: later ∧ identify ci = true
    ∧ ∀ c, c ∈ skipped → identify c = false.
Proof.
  induction rest as [|c rest IH]; simpl.
  - split; [done|]. intros ([|??] & ? & ? & _); done.
  - destruct (identify c) eqn:Hc.
    + split.
      * intros [= ->]. exists [], rest. split_and!; try done.
        intros ? ?%elem_of_nil. done.
      * intros ([|c' skipped] & later & Heq & Hci & Hskip); simplify_eq/=.
        -- done.
        -- rewrite Hskip in Hc by left. done.
    + rewrite IH. split.
      * intros (skipped & later & -> & Hci & Hskip).
        exists (c :: skipped), later. split_and!; try done.
        intros c' [->|?]%elem_of_cons; auto.
      * intros ([|c' skipped] & later & Heq & Hci & Hskip); simplify_eq/=.
        -- congruence.
        -- exists skipped, later. split_and!; try done.
           intros c Hin. apply Hskip. by right.
Qed.

Lemma probe_None identify (rest : list Provider) :
  probe identify rest = None ↔ ∀ c, c ∈ rest → identify c = false.
Proof.
  induction rest as [|c rest IH]; simpl.
  - split; [|done]. intros _ ? ?%elem_of_nil. done.
  - destruct (identify c) eqn:Hc.
    + split; [done|]. intros Hall. rewrite Hall in Hc by left. done.
    + rewrite IH. split.
      * intros Hall c' [->|?]%elem_of_cons; auto.
      * intros Hall c' Hin. apply Hall. by right.
Qed.

Lemma every_provider_probed ci : ci ∈ cis.
Proof. unfold cis. destruct ci; set_solver. Qed.

(** C9: [Identify] probes azure, buildkite and gitlab in this order and
    returns the first provider that identifies itself; it returns [nil]
    when none does. *)
Theorem Identify_first_active (identify : Provider → bool) :
  cis = [azure; buildkite; gitlab]
  ∧ (∀ ci, Identify identify = Some ci ↔
           ∃ skipped later,
             cis = skipped ++ ci :: later ∧ identify ci = true
             ∧ ∀ c, c ∈ skipped → identify c = false)
  ∧ (Identify identify = None ↔ ∀ ci, identify ci = false).
Proof.
  split_and!.
  - reflexivity.
  - intros ci. apply probe_Some.
  - unfold Identify. rewrite probe_None. split.
    + intros Hall ci. apply Hall, every_provider_probed.
    + auto.
Qed.

Example Identify_gitlab :
  Identify (λ ci, bool_decide (ci = gitlab)) = Some gitlab.
Proof. reflexivity. Qed.

Example Identify_prefers_azure : Identify (λ _, true) = Some azure.
Proof. reflexivity. Qed.

Example Identify_buildkite_before_gitlab :
  Identify (λ ci, bool_decide (ci ≠ azure)) = Some buildkite.
Proof. reflexivity. Qed.

Example Identify_nil : Identify (λ _, false) = None.
Proof. reflexivity. Qed.

(** *** The build name of [CommonCI] *)

Example Base_samples :
  Base "/builds/group/Dummy_Repo//" = "Dummy_Repo"
  ∧ Base "" = "." ∧ Base "///" = "/" ∧ Base "repo" = "repo".
Proof. repeat split. Qed.

Lemma lower_byte_idem c : lower_byte (lower_byte c) = lower_byte c.
Proof. by destruct c as [[] [] [] [] [] [] [] []]. Qed.

Lemma get_lowerASCII i s :
  String.get i (lowerASCII s) = lower_byte <$> String.get i s.
Proof.
  revert i. induction s as [|c s IH]; intros [|i]; simpl; auto.
Qed.

Lemma length_lowerASCII s : String.length (lowerASCII s) = String.length s.
Proof. induction s as [|c s IH]; simpl; auto. Qed.

Section tables.
Context `{UnicodeTables}.

(** [CommonCI.BuildName] lower-cases the name and leaves [_] in it. *)
Example BuildName_keeps_underscore :
  BuildName "/builds/group/Dummy_Repo" = "dummy_repo".
Proof. reflexivity. Qed.

Lemma ToLower_ASCII s : isASCII s = true → ToLower s = lowerASCII s.
Proof. intros Hs. unfold ToLower. by rewrite Hs. Qed.

Lemma ToLower_other s : isASCII s = false → ToLower s = mapToLower s.
Proof. intros Hs. unfold ToLower. by rewrite Hs. Qed.

Lemma ToLower_nonempty s : s ≠ "" → ToLower s ≠ "".
Proof.
  intros Hs. unfold ToLower. destruct (isASCII s).
  - by destruct s.
  - by apply mapToLower_nonempty.
Qed.

End tables.

End CIFacts.

(** ** Facts about the gateway *)

Module GatewayFacts.
Import Gateway.

(** Writing the set is the same as laying it over the tree. *)
Lemma writeAll_union dest (t : gmap string string) ds :
  writeAll dest t ds = writeAll dest ∅ ds ∪ t.
Proof.
  unfold writeAll. revert t. induction ds as [|d ds IH]; intros t; simpl.
  - by rewrite (left_id_L ∅ (∪)).
  - rewrite IH. rewrite (IH (writeEntry dest ∅ d)). unfold writeEntry.
    rewrite <- (assoc_L (∪)). f_equal.
    rewrite (insert_union_singleton_l t).
    by rewrite <- insert_empty.
Qed.

(** Writing the same set again changes nothing. *)
Lemma writeAll_idem dest (t : gmap string string) ds :
  writeAll dest (writeAll dest t ds) ds = writeAll dest t ds.
Proof.
  rewrite (writeAll_union dest (writeAll dest t ds)).
  rewrite (writeAll_union dest t).
  by rewrite (assoc_L (∪)), (idemp_L (∪)).
Qed.

Lemma diffEmpty_same dest (t : gmap string string) : diffEmpty dest t t = true.
Proof. unfold diffEmpty. by apply bool_decide_eq_true. Qed.

Ltac run_cases :=
  unfold Promote, step, failed;
  repeat case_match; simplify_eq/=.

Ltac no_such_event :=
  let Hin := fresh "Hin" in
  intros Hin;
  repeat (apply elem_of_cons in Hin as [Hin|Hin]; [discriminate Hin|]);
  by apply elem_of_nil in Hin.

Ltac split_trace pre :=
  do 6 (try (destruct pre as [|? pre]; simplify_eq/=)).

Lemma Promote_fault_kept w endpoint credentials ds name who msg :
  fault (after (Promote w endpoint credentials ds name who msg)) = fault w
  ∧ keyFiles (after (Promote w endpoint credentials ds name who msg))
    = keyFiles w.
Proof. run_cases; done. Qed.


(** C5: a push comes only after the commit it pushes, a commit only after
    the descriptors were written, and a failure at one of the steps 1 to 4
    leaves everything as it was, with no commit and no push. *)
Theorem Promote_effects_ordered
    (w : World) (endpoint : GitOpsEndpoint) (credentials : GitCredentials)
    (ds : list Descriptor) (name who msg : string) :
  let r := Promote w endpoint credentials ds name who msg in
  (∀ pre to c post,
     trace r = pre ++ Pushed to c :: post → Committed c ∈ pre)
  ∧ (∀ pre c post,
       trace r = pre ++ Committed c :: post →
       Wrote (destination (path endpoint) name) ∈ pre
       ∧ ∃ history, remotes w !! url endpoint = Some history
           ∧ tree c
             = writeAll (destination (path endpoint) name)
                 (headTree history) ds)
  ∧ (∀ s e,
       outcome r = Failed s e →
       s ∈ [Clone; Authenticate; Destination; Write] →
       after r = w ∧ quiet (trace r))
  ∧ ((∀ to c, Pushed to c ∉ trace r) → remotes (after r) = remotes w).
Proof.
  intros r. subst r. split_and!.
  - intros pre to c post. run_cases; intros Heq; split_trace pre; set_solver.
  - intros pre c post. run_cases; intros Heq; split_trace pre;
      (split; [rewrite !elem_of_cons; auto|eauto]).
  - intros s e. unfold quiet. run_cases; simpl; intros Hout Hs;
      inversion Hout; subst;
      rewrite !elem_of_cons, elem_of_nil in Hs;
      destruct Hs as [Hs|[Hs|[Hs|[Hs|[]]]]]; try discriminate Hs;
      (split; [done|split; intros; no_such_event]).
  - run_cases; try done. intros Hnone. exfalso. eapply Hnone.
    do 4 apply list_elem_of_further. apply list_elem_of_here.
Qed.

(** With an empty diff the gateway stops after staging: nothing is
    committed or pushed and the world is as before. *)
Lemma Promote_empty_diff w endpoint credentials ds name who msg history :
  (∀ s, s ∈ [Clone; Authenticate; Destination; Write; Stage] →
        fault w s = None) →
  remotes w !! url endpoint = Some history →
  key credentials ∈ keyFiles w →
  diffEmpty (destination (path endpoint) name)
    (writeAll (destination (path endpoint) name) (headTree history) ds)
    (headTree history) = true →
  Promote w endpoint credentials ds name who msg
  = mkRun (Finished (mkOutcome false None false)) w
      [Cloned (url endpoint); Authenticated (key credentials);
       Wrote (destination (path endpoint) name)].
Proof.
  intros Hfault Hremote Hkey Hdiff. unfold Promote, step.
  rewrite !Hfault by (rewrite !elem_of_cons; auto 10).
  rewrite Hremote. rewrite decide_True by done. cbv zeta.
  by rewrite Hdiff.
Qed.

(** After a run that finished, a second run with the same descriptors
    finds an empty diff. *)
Lemma Promote_again w endpoint credentials ds name who msg o :
  outcome (Promote w endpoint credentials ds name who msg) = Finished o →
  Promote (after (Promote w endpoint credentials ds name who msg))
    endpoint credentials ds name who msg
  = mkRun (Finished (mkOutcome false None false))
      (after (Promote w endpoint credentials ds name who msg))
      [Cloned (url endpoint); Authenticated (key credentials);
       Wrote (destination (path endpoint) name)].
Proof.
  intros Hout.
  assert (∃ history,
    remotes w !! url endpoint = Some history
    ∧ key credentials ∈ keyFiles w
    ∧ (∀ s, s ∈ [Clone; Authenticate; Destination; Write; Stage] →
            fault w s = None)
    ∧ (after (Promote w endpoint credentials ds name who msg) = w
       ∧ diffEmpty (destination (path endpoint) name)
           (writeAll (destination (path endpoint) name)
              (headTree history) ds)
           (headTree history) = true
       ∨ after (Promote w endpoint credentials ds name who msg)
         = pushed_to w (url endpoint)
             (mkCommit
                (writeAll (destination (path endpoint) name)
                   (headTree history) ds) who msg :: history)))
    as (history & Hremote & Hkey & Hfault & Hafter).
  { revert Hout. run_cases; intros Hout; simplify_eq/=;
      (eexists; split_and!; [done..| |]);
      [intros s; rewrite !elem_of_cons, elem_of_nil;
       intros [->|[->|[->|[->|[->|[]]]]]]; done
      |auto
      |intros s; rewrite !elem_of_cons, elem_of_nil;
       intros [->|[->|[->|[->|[->|[]]]]]]; done
      |auto]. }
  destruct Hafter as [[-> Hdiff]| ->].
  - by apply (Promote_empty_diff _ _ _ _ _ _ _ history).
  - apply (Promote_empty_diff _ _ _ _ _ _ _
             (mkCommit
                (writeAll (destination (path endpoint) name)
                   (headTree history) ds) who msg :: history)).
    + done.
    + simpl. apply lookup_insert_eq.
    + done.
    + simpl. rewrite writeAll_idem. apply diffEmpty_same.
Qed.

(** A world in which the default key is missing. *)
Lemma Promote_effects_ordered_witness :
  let w := mkWorld {["/srv/gitops" := []]} ∅ (λ _, None) in
  let r := Promote w (mkEndpoint "/srv/gitops" "" "")
             (mkCredentials "git" "/home/.ssh/id_rsa" "")
             [mkDescriptor "descriptor.yaml" "kind: ConfigMap"]
             "dummy" "ci" "promote" in
  after r = w ∧ quiet (trace r).
Proof.
  intros w r.
  destruct (Promote_effects_ordered w (mkEndpoint "/srv/gitops" "" "")
              (mkCredentials "git" "/home/.ssh/id_rsa" "")
              [mkDescriptor "descriptor.yaml" "kind: ConfigMap"]
              "dummy" "ci" "promote") as (_ & _ & Hfail & _).
  apply (Hfail Authenticate
           "ssh key: open /home/.ssh/id_rsa: no such file or directory").
  - vm_compute. reflexivity.
  - rewrite !elem_of_cons. auto.
Defined.

End GatewayFacts.

(** ** Facts about the orchestrator *)

Module PromoteFacts.
Import GoStrings GoStringsFacts File Gateway GatewayFacts Promote.

Section tables.
Context `{UnicodeTables}.

Lemma resolveDescriptors_kind inv target k e :
  resolveDescriptors inv target = inl (k, e) →
  k = FilesystemError ∨ k = DescriptorNotFoundError.
Proof.
  unfold resolveDescriptors. repeat case_match; naive_solver.
Qed.

Lemma kindOfStep_downstream s : exitCode (kindOfStep s) = (-4)%Z.
Proof. by destruct s. Qed.

Lemma eqb_empty_false s : String.eqb s "" = false ↔ s ≠ "".
Proof. apply String.eqb_neq. Qed.

(** The path of an invocation through the states of the orchestrator. *)
Lemma promote_cases inv w :
  (parsed inv = HelpRequested ∧ kind (promote inv w) = HelpShown)
  ∨ (parsed inv = VersionRequested ∧ kind (promote inv w) = VersionShown)
  ∨ (∃ e, parsed inv = BadArguments e
          ∧ kind (promote inv w) = ArgumentError)
  ∨ (∃ a e, parsed inv = Arguments_ a ∧ config inv = Err e
            ∧ kind (promote inv w) = ConfigError)
  ∨ (∃ a cfg, parsed inv = Arguments_ a ∧ config inv = Ok cfg
              ∧ gitops cfg !! Target a = None
              ∧ kind (promote inv w) = TargetNotFoundError)
  ∨ (∃ a cfg configured,
       parsed inv = Arguments_ a ∧ config inv = Ok cfg
       ∧ gitops cfg !! Target a = Some configured
       ∧ (Commit (build inv) = "" ∨ Branch (build inv) = "")
       ∧ kind (promote inv w) = UnidentifiedBuildError)
  ∨ (∃ a cfg configured,
       identified inv a cfg configured
       ∧ downstreamFailure inv w a cfg configured
       ∧ exitCode (kind (promote inv w)) = (-4)%Z
       ∧ kind (promote inv w)
         ∈ [DescriptorNotFoundError; FilesystemError;
            CredentialError; GitTransportError])
  ∨ (∃ a cfg configured,
       identified inv a cfg configured
       ∧ ¬ downstreamFailure inv w a cfg configured
       ∧ kind (promote inv w) ∈ [Success; NoOp]).
Proof.
  unfold promote, stop.
  destruct (parsed inv) as [| |e|a] eqn:Hp; simpl; [auto|auto|eauto 10|].
  destruct (config inv) as [cfg|e] eqn:Hc; simpl; [|eauto 12].
  destruct (gitops cfg !! Target a) as [configured|] eqn:Ht; simpl;
    [|eauto 12].
  destruct (String.eqb (Commit (build inv)) "") eqn:Hcommit; simpl.
  { apply String.eqb_eq in Hcommit. do 5 right. left. eauto 10. }
  destruct (String.eqb (Branch (build inv)) "") eqn:Hbranch; simpl.
  { apply String.eqb_eq in Hbranch. do 5 right. left. eauto 10. }
  apply String.eqb_neq in Hcommit, Hbranch.
  assert (identified inv a cfg configured) as Hid by done.
  do 6 right.
  destruct (resolveDescriptors inv (Target a)) as [[k e]|ds] eqn:Hds; simpl.
  { left. exists a, cfg, configured.
    unfold downstreamFailure. rewrite Hds. split_and!; try done.
    - apply resolveDescriptors_kind in Hds as [-> | ->]; done.
    - apply resolveDescriptors_kind in Hds as [-> | ->];
        rewrite !elem_of_cons; auto. }
  destruct (String.eqb (Out a) "") eqn:Hout; simpl.
  - fold (gatewayRun inv w a cfg configured ds).
    destruct (outcome (gatewayRun inv w a cfg configured ds))
      as [o|s e] eqn:Hr.
    + right. exists a, cfg, configured.
      unfold downstreamFailure. rewrite Hds, Hout, Hr.
      split_and!; try done.
      * intros (? & ? & ?). done.
      * destruct (pushed o); simpl; rewrite !elem_of_cons; auto.
    + left. exists a, cfg, configured.
      unfold downstreamFailure. rewrite Hds, Hout, Hr.
      split_and!; try done.
      * eauto.
      * simpl. apply kindOfStep_downstream.
      * simpl. destruct s; simpl; rewrite !elem_of_cons; auto.
  - destruct (writeOut inv (Out a)) as [e|] eqn:Hw; simpl.
    + left. exists a, cfg, configured.
      unfold downstreamFailure. rewrite Hds, Hout, Hw.
      split_and!; try done. rewrite !elem_of_cons; auto.
    + right. exists a, cfg, configured.
      unfold downstreamFailure. rewrite Hds, Hout, Hw.
      split_and!; try done; try (by intros [? ?]).
      rewrite !elem_of_cons; auto.
Qed.


Ltac in_list := rewrite ?elem_of_cons, ?elem_of_nil in *.

Ltac break_hyps :=
  repeat match goal with
         | H : ∃ _, _ |- _ => destruct H as [? H]
         | H : _ ∧ _ |- _ => destruct H as [? H]
         | H : _ ∨ _ |- _ => destruct H as [H|H]
         | H : False |- _ => destruct H
         end.

Ltac settle :=
  break_hyps;
  first [ congruence
        | exfalso; match goal with Hn : ¬ _ |- _ => apply Hn; congruence end
        | eauto 12 ].

(** C1: [DoPromote] ends with one of five exit codes, by the kind of
    result: 0 for success, no-op, help and version; -1 when the arguments
    or the configuration do not parse; -2 when the target is no key of the
    gitops section; -3 when the commit or the branch is empty; -4 for a
    failure to resolve descriptors, of the file system, of the credentials
    or of the git transport. *)
Theorem DoPromote_exit_codes (inv : Invocation) (w : World) :
  let r := promote inv w in
  let code := DoPromote inv w in
  code ∈ [0; -1; -2; -3; -4]%Z
  ∧ (code = 0%Z ↔ kind r ∈ [Success; NoOp; HelpShown; VersionShown])
  ∧ (kind r ∈ [HelpShown; VersionShown] ↔
     parsed inv = HelpRequested ∨ parsed inv = VersionRequested)
  ∧ (kind r ∈ [Success; NoOp] ↔
     ∃ a cfg configured,
       identified inv a cfg configured
       ∧ ¬ downstreamFailure inv w a cfg configured)
  ∧ (code = (-1)%Z ↔
     (∃ e, parsed inv = BadArguments e)
     ∨ (∃ a e, parsed inv = Arguments_ a ∧ config inv = Err e))
  ∧ (code = (-2)%Z ↔
     ∃ a cfg, parsed inv = Arguments_ a ∧ config inv = Ok cfg
              ∧ gitops cfg !! Target a = None)
  ∧ (code = (-3)%Z ↔
     ∃ a cfg configured,
       parsed inv = Arguments_ a ∧ config inv = Ok cfg
       ∧ gitops cfg !! Target a = Some configured
       ∧ (Commit (build inv) = "" ∨ Branch (build inv) = ""))
  ∧ (code = (-4)%Z ↔
     ∃ a cfg configured,
       identified inv a cfg configured
       ∧ downstreamFailure inv w a cfg configured)
  ∧ (code = (-4)%Z ↔
     kind r ∈ [DescriptorNotFoundError; FilesystemError;
               CredentialError; GitTransportError]).
Proof.
  intros r code. subst r code. unfold DoPromote, identified.
  destruct (promote_cases inv w)
    as [(Hp & Hk)|[(Hp & Hk)|[(e & Hp & Hk)|[(a & e & Hp & Hc & Hk)
       |[(a & cfg & Hp & Hc & Ht & Hk)
       |[(a & cfg & configured & Hp & Hc & Ht & Hb & Hk)
       |[(a & cfg & configured & Hid & Hfail & Hcode & Hk)
       |(a & cfg & configured & Hid & Hfail & Hk)]]]]]]].
  1-6: rewrite Hk; simpl; split_and!; in_list;
       try (split; intros; in_list); settle.
  - rewrite Hcode. unfold identified in Hid.
    split_and!; in_list; try (split; intros; in_list); settle.
  - unfold identified in Hid.
    assert (exitCode (kind (promote inv w)) = 0%Z) as Hcode.
    { in_list. destruct Hk as [-> | [-> | []]]; done. }
    rewrite Hcode.
    split_and!; in_list; try (split; intros; in_list); settle.
Qed.


Lemma quiet_nil : quiet [].
Proof. split; intros; apply not_elem_of_nil. Qed.

Lemma quiet_written from with_key dest :
  quiet [Cloned from; Authenticated with_key; Wrote dest].
Proof. split; intros; no_such_event. Qed.

(** A second promotion after one that ended with exit code 0. *)
Lemma promote_again inv w :
  exitCode (kind (promote inv w)) = 0%Z →
  exitCode (kind (promote inv (world (promote inv w)))) = 0%Z
  ∧ world (promote inv (world (promote inv w))) = world (promote inv w)
  ∧ quiet (effects (promote inv (world (promote inv w)))).
Proof.
  unfold promote, stop.
  destruct (parsed inv) as [| |e|a]; simpl; try done;
    try (intros _; split_and!; [done..|apply quiet_nil]).
  destruct (config inv) as [cfg|e]; simpl; [|done].
  destruct (gitops cfg !! Target a) as [configured|]; simpl; [|done].
  destruct (String.eqb (Commit (build inv)) "" ||
            String.eqb (Branch (build inv)) ""); simpl; [done|].
  destruct (resolveDescriptors inv (Target a)) as [[k e]|ds] eqn:Hds; simpl.
  { intros Hk. split_and!; [done..|apply quiet_nil]. }
  destruct (negb (String.eqb (Out a) "")); simpl.
  { destruct (writeOut inv (Out a)); simpl; [done|].
    intros _. split_and!; [done..|apply quiet_nil]. }
  set (name := normalize (RawBuildName (build inv))).
  set (endpoint := resolveEndpoint a configured).
  set (credentials := resolveCredentials (home inv) a (git cfg)).
  set (who := authorOf (git cfg)).
  set (msg := commitMessage name (Commit (build inv))).
  destruct (outcome (Promote w endpoint credentials ds name who msg))
    as [o|s e] eqn:Hfirst; simpl.
  2: { intros Hcode. by rewrite kindOfStep_downstream in Hcode. }
  intros _.
  pose proof (Promote_again w endpoint credentials ds name who msg o Hfirst)
    as Hsecond.
  destruct (pushed o); simpl; rewrite Hsecond; simpl;
    (split_and!; [done..|apply quiet_written]).
Qed.

(** When the invocation ends before the gateway, nothing outside the
    process is touched. *)
Lemma promote_fail_fast inv w :
  kind (promote inv w)
  ∈ [HelpShown; VersionShown; ArgumentError; ConfigError;
     TargetNotFoundError; UnidentifiedBuildError; DescriptorNotFoundError] →
  world (promote inv w) = w ∧ effects (promote inv w) = [].
Proof.
  unfold promote, stop. repeat case_match; simpl; try done;
    in_list; intros Hk; break_hyps; try done;
    match goal with s : Step |- _ => by destruct s end.
Qed.

(** C4: when the staged destination does not differ from HEAD the gateway
    ends without a commit and without a push; and a promotion that is run
    again after a successful one ends with exit code 0 and adds no commit
    to any repository. *)
Theorem promote_again_no_new_commit (inv : Invocation) (w : World) :
  (∀ endpoint credentials ds name who msg history,
     (∀ s, s ∈ [Clone; Authenticate; Destination; Write; Stage] →
           fault w s = None) →
     remotes w !! url endpoint = Some history →
     key credentials ∈ keyFiles w →
     diffEmpty (destination (path endpoint) name)
       (writeAll (destination (path endpoint) name) (headTree history) ds)
       (headTree history) = true →
     let g := Promote w endpoint credentials ds name who msg in
     outcome g = Finished (mkOutcome false None false)
     ∧ after g = w ∧ quiet (trace g))
  ∧ (DoPromote inv w = 0%Z →
     let second := promote inv (world (promote inv w)) in
     DoPromote inv (world (promote inv w)) = 0%Z
     ∧ world second = world (promote inv w)
     ∧ quiet (effects second)
     ∧ ∀ to, newCommits (world (promote inv w)) (world second) to = 0).
Proof.
  split.
  - intros endpoint credentials ds name who msg history Hf Hr Hk Hd g.
    subst g.
    rewrite (Promote_empty_diff w endpoint credentials ds name who msg
               history Hf Hr Hk Hd).
    simpl. split_and!; [done..|apply quiet_written].
  - unfold DoPromote. intros Hcode. cbv zeta.
    destruct (promote_again inv w Hcode) as (Hagain & Hworld & Hquiet).
    split_and!; try done.
    intros to. unfold newCommits. rewrite Hworld. lia.
Qed.

(** *** The normalized build name *)

Lemma get_ReplaceByte old new i s :
  String.get i (ReplaceByte old new s)
  = (λ c, if Ascii.eqb c old then new else c) <$> String.get i s.
Proof.
  revert i. induction s as [|c s IH]; intros [|i]; simpl; auto.
Qed.

Lemma length_ReplaceByte old new s :
  String.length (ReplaceByte old new s) = String.length s.
Proof. induction s as [|c s IH]; simpl; auto. Qed.

Lemma normalize_byte c :
  (if Ascii.eqb (lower_byte c) "_" then "-"%char else lower_byte c)
  = (if Ascii.eqb c "_" then "-"%char
     else if (65 <=? nat_of_ascii c) && (nat_of_ascii c <=? 90)
          then ascii_of_nat (nat_of_ascii c + 32)
          else c).
Proof. by destruct c as [[] [] [] [] [] [] [] []]. Qed.

Lemma get_normalize_ASCII i raw :
  isASCII raw = true →
  String.get i (normalize raw)
  = (λ c : ascii,
       if Ascii.eqb c "_" then "-"%char
       else if (65 <=? nat_of_ascii c) && (nat_of_ascii c <=? 90)
            then ascii_of_nat (nat_of_ascii c + 32)
            else c) <$> String.get i raw.
Proof.
  intros Hraw. unfold normalize.
  rewrite get_ReplaceByte, (CIFacts.ToLower_ASCII raw Hraw).
  rewrite CIFacts.get_lowerASCII.
  destruct (String.get i raw) as [c|]; simpl; [|done].
  by rewrite normalize_byte.
Qed.

Lemma normalize_no_underscore i raw :
  String.get i (normalize raw) ≠ Some "_"%char.
Proof.
  unfold normalize. rewrite get_ReplaceByte.
  destruct (String.get i (ToLower raw)) as [c|]; simpl; [|done].
  destruct (Ascii.eqb_spec c "_") as [->|Hc]; [done|]. congruence.
Qed.

Lemma destination_ends_with_name configured name :
  HasSuffix (destination configured name) name = true.
Proof.
  unfold destination. destruct (String.eqb configured "").
  - apply (HasSuffix_app "" name).
  - rewrite <- str_app_assoc. apply HasSuffix_app.
Qed.

(** The gateway writes under the destination of the normalized name. *)
Lemma Promote_writes_destination w endpoint credentials ds name who msg dest :
  Wrote dest ∈ trace (Promote w endpoint credentials ds name who msg) →
  dest = destination (path endpoint) name.
Proof.
  run_cases; rewrite ?elem_of_cons, ?elem_of_nil; intros Hin;
    break_hyps; congruence.
Qed.

Lemma promote_writes_normalized inv w dest :
  Wrote dest ∈ effects (promote inv w) →
  ∃ configured,
    dest = destination configured (normalize (RawBuildName (build inv))).
Proof.
  unfold promote, stop.
  repeat case_match; simpl;
    try (by intros ?%elem_of_nil);
    intros ?%Promote_writes_destination; eauto.
Qed.

(** C6: the build name that ends the destination path is the raw build
    name of the CI in lower case with every [_] rewritten to [-]: byte by
    byte for an ASCII name, where ['A'..'Z'] move to ['a'..'z'], and through
    the Unicode tables otherwise; no [_] is left in either case. The raw
    names [dummy_repo] and [Dummy_Repo] give the path segment
    [dummy-repo]. *)
Theorem destination_uses_normalized_build_name (inv : Invocation) (w : World) :
  (∀ dest,
     Wrote dest ∈ effects (promote inv w) →
     ∃ configured,
       dest = destination configured (normalize (RawBuildName (build inv)))
       ∧ HasSuffix dest (normalize (RawBuildName (build inv))) = true)
  ∧ (∀ raw,
       isASCII raw = true →
       String.length (normalize raw) = String.length raw
       ∧ ∀ i, String.get i (normalize raw)
              = (λ c : ascii,
                   if Ascii.eqb c "_" then "-"%char
                   else if (65 <=? nat_of_ascii c)
                           && (nat_of_ascii c <=? 90)
                        then ascii_of_nat (nat_of_ascii c + 32)
                        else c) <$> String.get i raw)
  ∧ (∀ raw,
       isASCII raw = false →
       normalize raw = ReplaceByte "_" "-" (mapToLower raw))
  ∧ (∀ raw i, String.get i (normalize raw) ≠ Some "_"%char)
  ∧ normalize "dummy_repo" = "dummy-repo"
  ∧ normalize "Dummy_Repo" = "dummy-repo"
  ∧ destination "" (normalize "Dummy_Repo") = "dummy-repo".
Proof.
  split_and!.
  - intros dest (configured & ->)%promote_writes_normalized.
    exists configured. split; [done|]. apply destination_ends_with_name.
  - intros raw Hraw. split.
    + unfold normalize.
      rewrite length_ReplaceByte, (CIFacts.ToLower_ASCII raw Hraw).
      apply CIFacts.length_lowerASCII.
    + intros i. by apply get_normalize_ASCII.
  - intros raw Hraw. unfold normalize.
    by rewrite (CIFacts.ToLower_other raw Hraw).
  - intros raw i. apply normalize_no_underscore.
  - reflexivity.
  - reflexivity.
  - reflexivity.
Qed.

(** *** The test table of [TestDoPromote] *)

Example test_invalid_argument :
  observed invalidArgument
  = ((-1)%Z, Some "error: unknown flag --unknown", 0).
Proof. vm_compute. reflexivity. Qed.

Example test_help : (observed help).1.1 = 0%Z.
Proof. vm_compute. reflexivity. Qed.

Example test_broken_config : (observed brokenConfig).1.1 = (-1)%Z.
Proof. vm_compute. reflexivity. Qed.

Example test_missing_target :
  observed missingTarget
  = ((-2)%Z, Some "no gitops matching dummy found", 0).
Proof. vm_compute. reflexivity. Qed.

Example test_no_CI : (observed noCIRun).1.1 = (-3)%Z.
Proof. vm_compute. reflexivity. Qed.

Example test_no_deployment_descriptors :
  (observed noDescriptors).1.1 = (-4)%Z
  ∧ observed emptyDirectory
    = ((-4)%Z, Some "no deployment descriptors found in k8s directory", 0).
Proof. split; vm_compute; reflexivity. Qed.

Example test_generation_successful :
  observed generationSuccessful
  = (0%Z, Some "pushing commit to /tmp/git-repo/dummy", 1).
Proof. vm_compute. reflexivity. Qed.

Example test_build_name_is_normalized :
  observed buildNameNormalized
  = (0%Z, Some "pushing commit to /tmp/git-repo/dummy-repo", 1).
Proof. vm_compute. reflexivity. Qed.

Example test_other_repo_path_and_tag :
  observed otherRepoPathAndTag
  = (0%Z, Some "pushing commit to /tmp/other-repo/test/path/dummy", 0).
Proof. vm_compute. reflexivity. Qed.

Example test_other_ssh_key_from_config :
  observed otherKeyFromConfig
  = (0%Z, Some "pushing commit to /tmp/git-repo/dummy", 1)
  ∧ Authenticated "/home/other/id_rsa"
    ∈ effects (promote otherKeyFromConfig testWorld).
Proof.
  split; [vm_compute; reflexivity|].
  vm_compute. apply list_elem_of_further, list_elem_of_here.
Qed.

Example test_clone_error :
  observed cloneError = ((-4)%Z, Some "repository not found", 0).
Proof. vm_compute. reflexivity. Qed.

Example test_missing_SSH_key :
  observed missingSSHKey
  = ((-4)%Z,
     Some "ssh key: open /missing/key: no such file or directory", 0).
Proof. vm_compute. reflexivity. Qed.

(** A raw name with upper-case letters ends in the same path segment. *)
Example mixed_case_name_is_normalized :
  observed mixedCaseName
  = (0%Z, Some "pushing commit to /tmp/git-repo/dummy-repo", 1).
Proof. vm_compute. reflexivity. Qed.

(** A second run of the successful row is a no-op. *)
Example test_second_run :
  let w1 := world (promote generationSuccessful testWorld) in
  let r2 := promote generationSuccessful w1 in
  (kind r2, newCommits w1 (world r2) repo) = (NoOp, 0).
Proof. vm_compute. reflexivity. Qed.

End tables.

#[local] Existing Instance noTables.

Lemma promote_again_no_new_commit_witness :
  let first := promote generationSuccessful testWorld in
  let second := promote generationSuccessful (world first) in
  DoPromote generationSuccessful (world first) = 0%Z
  ∧ world second = world first
  ∧ quiet (effects second)
  ∧ ∀ to, newCommits (world first) (world second) to = 0.
Proof.
  destruct (promote_again_no_new_commit generationSuccessful testWorld)
    as [_ Hagain].
  apply Hagain. vm_compute. reflexivity.
Defined.

Lemma destination_uses_normalized_build_name_witness :
  ∃ configured,
    "dummy-repo"
    = destination configured
        (normalize (RawBuildName (build mixedCaseName)))
    ∧ HasSuffix "dummy-repo"
        (normalize (RawBuildName (build mixedCaseName))) = true.
Proof.
  destruct (destination_uses_normalized_build_name
              mixedCaseName testWorld) as [Hdest _].
  apply Hdest. vm_compute.
  do 2 apply list_elem_of_further. apply list_elem_of_here.
Defined.

End PromoteFacts.

(** ** More about the file resolver *)

Module ResolverFacts.
Import GoStrings GoStringsFacts File FileFacts.

Section resolver.
Context (target suffix : string).

(** With different names in the listing, a candidate is looked up to the
    entry that carries its name. *)
Lemma collect_lookup_NoDup (files : list FileInfo) k v :
  NoDup (Name <$> files) →
  collect target suffix files !! k = Some v ↔
  v ∈ files ∧ Name v = k ∧ candidate target suffix k = true.
Proof.
  intros Hnd. split; [apply collect_lookup|].
  intros (Hv & Hk & Hc).
  assert (is_Some (collect target suffix files !! k)) as [v' Hv'].
  { apply collect_is_Some. split; [|done]. apply list_elem_of_fmap. eauto. }
  rewrite Hv'. f_equal.
  apply collect_lookup in Hv' as (Hin & Hname & _).
  apply (names_determine files); congruence.
Qed.

Lemma collect_Permutation (files1 files2 : list FileInfo) :
  NoDup (Name <$> files1) → files1 ≡ₚ files2 →
  collect target suffix files1 = collect target suffix files2.
Proof.
  intros Hnd1 Hperm.
  assert (NoDup (Name <$> files2)) as Hnd2 by by rewrite <- Hperm.
  apply map_eq. intros k. apply option_eq. intros v.
  rewrite !collect_lookup_NoDup by done. by rewrite Hperm.
Qed.

(** Two sorted arrangements of the chosen entries are the same list. *)
Lemma sorted_chosen_agree (files : list FileInfo) (l1 l2 : list FileInfo) :
  l1 ≡ₚ chosen target suffix files → l2 ≡ₚ chosen target suffix files →
  StronglySorted notAfter l1 → StronglySorted notAfter l2 → l1 = l2.
Proof.
  intros H1 H2 Hs1 Hs2.
  apply (StronglySorted_unique_strong notAfter); [|done..|by rewrite H1, H2].
  intros x1 x2 Hx1 Hx2 H12 H21.
  apply (names_determine (chosen target suffix files)).
  - apply chosen_NoDup.
  - by rewrite <- H1.
  - by rewrite <- H2.
  - by apply notAfter_antisym.
Qed.

(** A name is returned exactly when it is a candidate that is used. *)
Lemma name_chosen (files : list FileInfo) n :
  n ∈ Name <$> chosen target suffix files ↔
  is_Some (collect target suffix files !! n)
  ∧ used target suffix (collect target suffix files) n = true.
Proof.
  rewrite list_elem_of_fmap. split.
  - intros (fi & -> & (k & Hk & Hu)%elem_of_chosen).
    apply collect_keyed in Hk as Hname. subst k. eauto.
  - intros ([fi Hfi] & Hu). exists fi. split.
    + by apply collect_keyed in Hfi.
    + apply elem_of_chosen. eauto.
Qed.

End resolver.

End ResolverFacts.

(** ** What the resolver returns, seen from the directory *)

Module ResolverTheorems.
Import GoStrings GoStringsFacts File FileFacts ResolverFacts.

(** C2: for every directory listing and target, every listed name that
    ends with [-<target><suffix>] is returned, and a listed default
    [X<suffix>] with no dash is returned exactly when the override name
    [X-<target><suffix>] is not among the candidates, which are the listed
    names that pass the test of the first loop. With pairwise different
    names in the listing the same holds of the entries themselves. *)
Theorem filesForTarget_override_rule
    (fs : FileSystem) (range : Schedule)
    (dir target filetype suffix : string) (files : list FileInfo) :
  fair range → fs dir = Ok files →
  ∃ res,
    filesForTarget fs range dir target filetype suffix = Ok res
    ∧ (∀ k, is_Some (collect target suffix files !! k) ↔
            k ∈ Name <$> files ∧ candidate target suffix k = true)
    ∧ (∀ n, n ∈ Name <$> files →
            HasSuffix n (targetSuffix target suffix) = true →
            n ∈ Name <$> res)
    ∧ (∀ X, X +:+ suffix ∈ Name <$> files →
            Contains (X +:+ suffix) "-" = false →
            (X +:+ suffix ∈ Name <$> res ↔
             collect target suffix files
               !! (X +:+ "-" +:+ target +:+ suffix) = None)
            ∧ (X +:+ suffix ∈ Name <$> res ↔
               X +:+ "-" +:+ target +:+ suffix ∉ Name <$> files))
    ∧ (NoDup (Name <$> files) →
       (∀ fi, fi ∈ files →
              HasSuffix (Name fi) (targetSuffix target suffix) = true →
              fi ∈ res)
       ∧ (∀ X fi, fi ∈ files → Name fi = X +:+ suffix →
                  Contains (X +:+ suffix) "-" = false →
                  (fi ∈ res ↔
                   X +:+ "-" +:+ target +:+ suffix ∉ Name <$> files)))
    ∧ (∀ fi, collect target suffix files !! Name fi = Some fi →
             HasSuffix (Name fi) (targetSuffix target suffix) = true →
             fi ∈ res)
    ∧ (∀ X fi, collect target suffix files !! (X +:+ suffix) = Some fi →
               Contains (X +:+ suffix) "-" = false →
               (fi ∈ res ↔
                collect target suffix files
                  !! (X +:+ "-" +:+ target +:+ suffix) = None)).
Proof.
  intros Hfair Hfs.
  destruct (run_Ok fs range dir target filetype suffix Hfair files Hfs)
    as (res & Hres & Hperm & _).
  assert (∀ X, collect target suffix files
                 !! (X +:+ "-" +:+ target +:+ suffix) = None ↔
               X +:+ "-" +:+ target +:+ suffix ∉ Name <$> files) as Hnone.
  { intros X. rewrite eq_None_not_Some, collect_is_Some. split.
    - intros Hnot Hin. apply Hnot. split; [done|].
      apply candidate_targeted, (HasSuffix_app X).
    - intros Hnot [Hin _]. by apply Hnot. }
  assert (∀ fi, collect target suffix files !! Name fi = Some fi →
                HasSuffix (Name fi) (targetSuffix target suffix) = true →
                fi ∈ res) as Hover.
  { intros fi Hfi Ht. rewrite Hperm. apply elem_of_chosen.
    exists (Name fi). split; [done|]. by apply used_targeted. }
  assert (∀ X fi, collect target suffix files !! (X +:+ suffix) = Some fi →
                  Contains (X +:+ suffix) "-" = false →
                  (fi ∈ res ↔
                   collect target suffix files
                     !! (X +:+ "-" +:+ target +:+ suffix) = None)) as Hbare.
  { intros X fi Hfi Hdash. rewrite Hperm, elem_of_chosen.
    rewrite <- (used_bare target suffix files X Hdash). split.
    - intros (k & Hk & Hu).
      apply collect_keyed in Hk as Hk'. apply collect_keyed in Hfi as Hfi'.
      congruence.
    - intros Hu. by exists (X +:+ suffix). }
  exists res. split_and!; try done.
  - intros k. apply collect_is_Some.
  - intros n Hn Ht. rewrite Hperm. apply name_chosen. split.
    + apply collect_is_Some. split; [done|]. by apply candidate_targeted.
    + by apply used_targeted.
  - intros X Hlisted Hdash.
    assert (X +:+ suffix ∈ Name <$> res ↔
            collect target suffix files
              !! (X +:+ "-" +:+ target +:+ suffix) = None) as Hiff.
    { rewrite Hperm, name_chosen.
      rewrite (used_bare target suffix files X Hdash). split; [by intros [_ ?]|].
      intros Hn. split; [|done]. apply collect_is_Some. split; [done|].
      unfold candidate. by rewrite HasSuffix_app, Hdash, orb_true_r. }
    split; [done|]. by rewrite Hiff, Hnone.
  - intros Hnd. split.
    + intros fi Hfi Ht. apply Hover; [|done].
      apply collect_lookup_NoDup; [done|]. split_and!; try done.
      by apply candidate_targeted.
    + intros X fi Hfi Hname Hdash. rewrite <- Hnone.
      apply Hbare; [|done].
      apply collect_lookup_NoDup; [done|]. split_and!; try done.
      unfold candidate. by rewrite HasSuffix_app, Hdash, orb_true_r.
Qed.

(** X1: whatever is returned is an entry of the directory that was read. *)
Theorem filesForTarget_from_directory
    (fs : FileSystem) (range : Schedule)
    (dir target filetype suffix : string) (res : list FileInfo) :
  fair range →
  filesForTarget fs range dir target filetype suffix = Ok res →
  ∃ files, fs dir = Ok files ∧ ∀ fi, fi ∈ res → fi ∈ files.
Proof.
  intros Hfair Hres.
  destruct (run_inv fs range dir target filetype suffix Hfair res Hres)
    as (files & Hfs & Hperm & _).
  exists files. split; [done|]. intros fi Hin. rewrite Hperm in Hin.
  apply elem_of_chosen in Hin as (k & Hk & _).
  by apply collect_lookup in Hk as (? & _).
Qed.

(** X2: the order in which the directory lists its entries does not
    matter: two listings of the same entries give the same result. *)
Theorem filesForTarget_listing_order
    (fs1 fs2 : FileSystem) (range1 range2 : Schedule)
    (dir target filetype suffix : string) (files1 files2 : list FileInfo) :
  fair range1 → fair range2 →
  fs1 dir = Ok files1 → fs2 dir = Ok files2 →
  NoDup (Name <$> files1) → files1 ≡ₚ files2 →
  filesForTarget fs1 range1 dir target filetype suffix
  = filesForTarget fs2 range2 dir target filetype suffix.
Proof.
  intros Hfair1 Hfair2 Hfs1 Hfs2 Hnd Hperm.
  destruct (run_Ok fs1 range1 dir target filetype suffix Hfair1 files1 Hfs1)
    as (res1 & -> & Hperm1 & Hsort1).
  destruct (run_Ok fs2 range2 dir target filetype suffix Hfair2 files2 Hfs2)
    as (res2 & -> & Hperm2 & Hsort2).
  f_equal. apply (sorted_chosen_agree target suffix files1); try done.
  rewrite Hperm2. unfold chosen.
  by rewrite (collect_Permutation target suffix files1 files2).
Qed.

(** X3: for a default [X<suffix>] of the directory, with no dash in its
    name, exactly one of the default and its override [X-<target><suffix>]
    is returned. *)
Theorem filesForTarget_default_or_override
    (fs : FileSystem) (range : Schedule)
    (dir target filetype suffix X : string)
    (files res : list FileInfo) :
  fair range → fs dir = Ok files →
  filesForTarget fs range dir target filetype suffix = Ok res →
  X +:+ suffix ∈ Name <$> files →
  Contains (X +:+ suffix) "-" = false →
  (X +:+ suffix ∈ Name <$> res
   ∧ (X +:+ "-" +:+ target +:+ suffix ∉ Name <$> res)
   ∧ (X +:+ "-" +:+ target +:+ suffix ∉ Name <$> files))
  ∨ ((X +:+ suffix ∉ Name <$> res)
     ∧ X +:+ "-" +:+ target +:+ suffix ∈ Name <$> res
     ∧ X +:+ "-" +:+ target +:+ suffix ∈ Name <$> files).
Proof.
  intros Hfair Hfs Hres Hlisted Hdash.
  destruct (run_Ok fs range dir target filetype suffix Hfair files Hfs)
    as (res' & Hres' & Hperm & _).
  rewrite Hres in Hres'. injection Hres' as <-.
  rewrite Hperm, !name_chosen.
  assert (candidate target suffix (X +:+ suffix) = true) as Hcand.
  { unfold candidate. by rewrite HasSuffix_app, Hdash, orb_true_r. }
  assert (is_Some (collect target suffix files !! (X +:+ suffix))) as Hdef.
  { by apply collect_is_Some. }
  destruct (used_bare target suffix files X Hdash) as [Hused1 Hused2].
  assert (HasSuffix (X +:+ "-" +:+ target +:+ suffix)
            (targetSuffix target suffix) = true) as Hover.
  { apply (HasSuffix_app X). }
  destruct (collect target suffix files !! (X +:+ "-" +:+ target +:+ suffix))
    as [o|] eqn:Ho.
  - right. split; [|split].
    + intros [_ Hu]. apply Hused1 in Hu. congruence.
    + split; [done|]. by apply used_targeted.
    + assert (is_Some
                (collect target suffix files
                   !! (X +:+ "-" +:+ target +:+ suffix))) as Hs
        by by rewrite Ho.
      by apply collect_is_Some in Hs as [? _].
  - left. split; [|split].
    + split; [done|]. by apply Hused2.
    + intros [[? Hs] _]. congruence.
    + intros Hin.
      assert (is_Some
                (collect target suffix files
                   !! (X +:+ "-" +:+ target +:+ suffix))) as [? Hs].
      { apply collect_is_Some. split; [done|]. by apply candidate_targeted. }
      congruence.
Qed.

(** X4: a name that ends with [-<u>-<t><suffix>] is an override for the
    target [t] and for the target [u-t] alike: it is returned for both. *)
Theorem filesForTarget_dashed_target_collision
    (fs : FileSystem) (range : Schedule)
    (dir filetype suffix p u t : string) (files : list FileInfo) :
  fair range → fs dir = Ok files →
  p +:+ "-" +:+ u +:+ "-" +:+ t +:+ suffix ∈ Name <$> files →
  ∃ res1 res2,
    filesForTarget fs range dir t filetype suffix = Ok res1
    ∧ filesForTarget fs range dir (u +:+ "-" +:+ t) filetype suffix = Ok res2
    ∧ p +:+ "-" +:+ u +:+ "-" +:+ t +:+ suffix ∈ Name <$> res1
    ∧ p +:+ "-" +:+ u +:+ "-" +:+ t +:+ suffix ∈ Name <$> res2.
Proof.
  intros Hfair Hfs Hlisted.
  destruct (run_Ok fs range dir t filetype suffix Hfair files Hfs)
    as (res1 & Hres1 & Hperm1 & _).
  destruct (run_Ok fs range dir (u +:+ "-" +:+ t) filetype suffix
              Hfair files Hfs) as (res2 & Hres2 & Hperm2 & _).
  exists res1, res2. split_and!; try done.
  - rewrite Hperm1. apply name_chosen.
    assert (HasSuffix (p +:+ "-" +:+ u +:+ "-" +:+ t +:+ suffix)
              (targetSuffix t suffix) = true) as Hend.
    { unfold targetSuffix.
      rewrite <- (str_app_assoc p "-" (u +:+ "-" +:+ t +:+ suffix)).
      rewrite <- (str_app_assoc (p +:+ "-") u ("-" +:+ t +:+ suffix)).
      apply HasSuffix_app. }
    split; [|by apply used_targeted].
    apply collect_is_Some. split; [done|]. by apply candidate_targeted.
  - rewrite Hperm2. apply name_chosen.
    assert (HasSuffix (p +:+ "-" +:+ u +:+ "-" +:+ t +:+ suffix)
              (targetSuffix (u +:+ "-" +:+ t) suffix) = true) as Hend.
    { unfold targetSuffix.
      rewrite !str_app_assoc. apply (HasSuffix_app p). }
    split; [|by apply used_targeted].
    apply collect_is_Some. split; [done|]. by apply candidate_targeted.
Qed.

(** X5: descriptors and scripts never overlap: no name is returned both by
    [FindFilesForTarget] and by [FindScriptsForTarget]. *)
Theorem files_and_scripts_disjoint
    (fs : FileSystem) (range : Schedule)
    (dir1 dir2 target1 target2 : string) (yamls scripts : list FileInfo)
    (a b : FileInfo) :
  fair range →
  FindFilesForTarget fs range dir1 target1 = Ok yamls →
  FindScriptsForTarget fs range dir2 target2 = Ok scripts →
  a ∈ yamls → b ∈ scripts → Name a ≠ Name b.
Proof.
  intros Hfair Hy Hs Ha Hb Heq.
  destruct (run_inv fs range dir1 target1 "file" ".yaml" Hfair yamls Hy)
    as (files1 & _ & Hperm1 & _).
  destruct (run_inv fs range dir2 target2 "script" ".sh" Hfair scripts Hs)
    as (files2 & _ & Hperm2 & _).
  rewrite Hperm1 in Ha. rewrite Hperm2 in Hb.
  apply elem_of_chosen in Ha as (k1 & Hk1 & _).
  apply elem_of_chosen in Hb as (k2 & Hk2 & _).
  apply collect_lookup in Hk1 as (_ & <- & Hc1).
  apply collect_lookup in Hk2 as (_ & <- & Hc2).
  unfold candidate in Hc1, Hc2.
  apply andb_true_iff in Hc1 as [Hyaml _].
  apply andb_true_iff in Hc2 as [Hsh _].
  apply (HasSuffix_weaken _ ".yam" "l") in Hyaml.
  apply (HasSuffix_weaken _ ".s" "h") in Hsh.
  rewrite Heq in Hyaml. unfold HasSuffix in Hyaml, Hsh.
  apply andb_true_iff in Hyaml as [_ Hl%String.eqb_eq].
  apply andb_true_iff in Hsh as [_ Hh%String.eqb_eq].
  simpl in Hl, Hh. congruence.
Qed.

(** What was chosen is chosen again when it is the whole listing. *)
Lemma chosen_chosen target suffix (files res : list FileInfo) :
  res ≡ₚ chosen target suffix files →
  chosen target suffix res ≡ₚ res.
Proof.
  intros Hperm.
  assert (NoDup (Name <$> res)) as Hnd.
  { rewrite Hperm. apply chosen_NoDup. }
  assert (∀ v, v ∈ res →
            collect target suffix files !! Name v = Some v
            ∧ used target suffix (collect target suffix files) (Name v)
              = true) as Hold.
  { intros v Hv. rewrite Hperm in Hv.
    apply elem_of_chosen in Hv as (k & Hk & Hu).
    apply collect_keyed in Hk as Hname. by subst k. }
  assert (∀ k v, collect target suffix res !! k = Some v ↔
                 v ∈ res ∧ Name v = k) as Hnew.
  { intros k v. rewrite collect_lookup_NoDup by done. split.
    - intros (? & ? & ?). done.
    - intros [Hv <-]. split_and!; try done.
      destruct (Hold v Hv) as [Hk _].
      by apply collect_lookup in Hk as (_ & _ & ?). }
  apply NoDup_Permutation.
  - apply (NoDup_fmap_1 Name), chosen_NoDup.
  - by apply (NoDup_fmap_1 Name).
  - intros v. rewrite elem_of_chosen. split.
    + intros (k & Hk & _). by apply Hnew in Hk as [? _].
    + intros Hv. exists (Name v). split; [by apply Hnew|].
      destruct (Hold v Hv) as [_ Hu]. unfold used in *.
      destruct (HasSuffix (Name v) (targetSuffix target suffix)); [done|].
      apply bool_decide_eq_true in Hu. apply bool_decide_eq_true.
      destruct (collect target suffix res
                  !! overrideName (Name v) target suffix) as [o|] eqn:Ho;
        [exfalso|done].
      apply Hnew in Ho as [Ho Hname].
      destruct (Hold o Ho) as [Hk _]. congruence.
Qed.

(** X6: resolving again over what was returned changes nothing: the result
    is a directory listing that resolves to itself. *)
Theorem filesForTarget_idempotent
    (fs fs' : FileSystem) (range range' : Schedule)
    (dir dir' target filetype suffix : string) (res : list FileInfo) :
  fair range → fair range' →
  filesForTarget fs range dir target filetype suffix = Ok res →
  fs' dir' = Ok res →
  filesForTarget fs' range' dir' target filetype suffix = Ok res.
Proof.
  intros Hfair Hfair' Hres Hfs'.
  destruct (run_inv fs range dir target filetype suffix Hfair res Hres)
    as (files & _ & Hperm & Hsorted).
  destruct (run_Ok fs' range' dir' target filetype suffix Hfair' res Hfs')
    as (res' & -> & Hperm' & Hsorted').
  f_equal. rewrite (chosen_chosen target suffix files res Hperm) in Hperm'.
  apply (StronglySorted_unique_strong notAfter); try done.
  intros x1 x2 Hx1 Hx2 H12 H21. rewrite Hperm' in Hx1.
  apply (names_determine res); auto using notAfter_antisym.
  rewrite Hperm. apply chosen_NoDup.
Qed.

End ResolverTheorems.

(** ** More about the build name *)

Module BuildNameFacts.
Import GoStrings GoStringsFacts FilePath CI.

Lemma stripTrailing_unfold c rest :
  stripTrailing (String c rest) =
  match stripTrailing rest with
  | EmptyString =>
      if Ascii.eqb c "/" then EmptyString else String c EmptyString
  | kept => String c kept
  end.
Proof. reflexivity. Qed.

(** One more separator at the end is stripped with the others. *)
Lemma stripTrailing_slash s : stripTrailing (s +:+ "/") = stripTrailing s.
Proof.
  induction s as [|c s IH]; [done|].
  rewrite str_app_cons, !stripTrailing_unfold. by rewrite IH.
Qed.

(** A path that ends with another byte than the separator is kept. *)
Lemma stripTrailing_keeps s c :
  c ≠ "/"%char →
  stripTrailing (s +:+ String c "") = s +:+ String c "".
Proof.
  intros Hc. induction s as [|d s IH].
  - rewrite str_app_nil_l. simpl.
    by rewrite (proj2 (Ascii.eqb_neq c "/") Hc).
  - rewrite str_app_cons, stripTrailing_unfold, IH.
    by destruct s.
Qed.

Lemma no_slash_cons c s :
  Contains (String c s) "/" = false → c ≠ "/"%char ∧ Contains s "/" = false.
Proof.
  unfold Contains. rewrite Index_unfold.
  destruct (String.prefix "/" (String c s)) eqn:Hp; [done|].
  destruct (Index s "/"); [done|]. intros _. split; [|done].
  intros ->.
  assert (String.prefix "/" (String "/" s) = true) as Ht
    by (apply prefix_spec; by exists s).
  congruence.
Qed.

Lemma lastElementFrom_no_slash elem name :
  Contains name "/" = false → lastElementFrom elem name = elem +:+ name.
Proof.
  revert elem. induction name as [|c name IH]; intros elem Hno; simpl.
  - by rewrite str_app_nil_r.
  - apply no_slash_cons in Hno as [Hc Hno].
    rewrite (proj2 (Ascii.eqb_neq c "/") Hc), IH by done.
    by rewrite str_app_assoc.
Qed.

Lemma lastElementFrom_after_slash elem dir rest :
  lastElementFrom elem (dir +:+ "/" +:+ rest) = lastElementFrom "" rest.
Proof.
  revert elem. induction dir as [|c dir IH]; intros elem.
  - reflexivity.
  - rewrite str_app_cons. simpl. destruct (Ascii.eqb c "/"); apply IH.
Qed.

Lemma name_ends (name : string) :
  name ≠ "" → ∃ p c, name = p +:+ String c "".
Proof.
  induction name as [|d name IH]; [done|]. intros _.
  destruct name as [|e name].
  - by exists "", d.
  - destruct IH as (p & c & Hp); [done|].
    exists (String d p), c. by rewrite str_app_cons, <- Hp.
Qed.

Lemma no_slash_last p c :
  Contains (p +:+ String c "") "/" = false → c ≠ "/"%char.
Proof.
  intros Hno ->.
  assert (Contains (p +:+ "/" +:+ "") "/" = true) as Hyes
    by apply Contains_app_mid.
  rewrite str_app_nil_r in Hyes. congruence.
Qed.

Section tables.
Context `{UnicodeTables}.

(** X7: the build name is the lower-cased last element of the working
    directory, whatever the directories above it are called: for an ASCII
    name every byte in ['A'..'Z'] has moved to ['a'..'z'] and the other
    bytes are the same. *)
Theorem BuildName_last_element (dir name : string) :
  name ≠ "" → Contains name "/" = false →
  BuildName (dir +:+ "/" +:+ name) = ToLower name
  ∧ (isASCII name = true →
     String.length (BuildName (dir +:+ "/" +:+ name)) = String.length name
     ∧ ∀ i, String.get i (BuildName (dir +:+ "/" +:+ name))
            = (λ c : ascii,
                 if (65 <=? nat_of_ascii c) && (nat_of_ascii c <=? 90)
                 then ascii_of_nat (nat_of_ascii c + 32)
                 else c) <$> String.get i name).
Proof.
  intros Hne Hno.
  assert (BuildName (dir +:+ "/" +:+ name) = ToLower name) as Hbase.
  { unfold BuildName, Base.
    destruct (name_ends name Hne) as (p & c & ->).
    pose proof (no_slash_last p c Hno) as Hc.
    assert (dir +:+ "/" +:+ p +:+ String c "" ≠ "") as Hfull.
    { intros Heq. apply (f_equal String.length) in Heq.
      rewrite !str_length_app in Heq. simpl in Heq. lia. }
    rewrite (proj2 (String.eqb_neq _ _) Hfull).
    replace (dir +:+ "/" +:+ p +:+ String c "")
      with ((dir +:+ "/" +:+ p) +:+ String c "")
      by by rewrite !str_app_assoc.
    rewrite stripTrailing_keeps by done.
    rewrite !str_app_assoc, lastElementFrom_after_slash.
    rewrite lastElementFrom_no_slash, str_app_nil_l by done.
    assert (p +:+ String c "" ≠ "") as Hlast.
    { intros Heq. apply (f_equal String.length) in Heq.
      rewrite str_length_app in Heq. simpl in Heq. lia. }
    by rewrite (proj2 (String.eqb_neq _ _) Hlast). }
  split; [done|]. intros Hascii.
  rewrite Hbase, (CIFacts.ToLower_ASCII name Hascii). split.
  - apply CIFacts.length_lowerASCII.
  - intros i. apply CIFacts.get_lowerASCII.
Qed.

(** X8: a separator at the end of the working directory does not change
    the build name, and the build name is never empty. *)
Theorem BuildName_trailing_separator (cwd : string) :
  (cwd ≠ "" → BuildName (cwd +:+ "/") = BuildName cwd)
  ∧ BuildName cwd ≠ "".
Proof.
  split.
  - intros Hne. unfold BuildName, Base.
    assert (cwd +:+ "/" ≠ "") as Hne'.
    { intros Heq. apply (f_equal String.length) in Heq.
      rewrite str_length_app in Heq. simpl in Heq. lia. }
    rewrite (proj2 (String.eqb_neq _ _) Hne).
    rewrite (proj2 (String.eqb_neq _ _) Hne').
    by rewrite stripTrailing_slash.
  - unfold BuildName. apply CIFacts.ToLower_nonempty.
    unfold Base.
    destruct (String.eqb cwd ""); [done|].
    destruct (String.eqb (lastElementFrom "" (stripTrailing cwd)) "")
      eqn:He; [done|].
    by apply String.eqb_neq in He.
Qed.

End tables.

End BuildNameFacts.

(** ** Facts about the docker client of the tests *)

Module DockerFacts.
Import Docker.

Lemma builds_cons m buildContext options rest :
  builds m ((buildContext, options) :: rest)
  = ((builds (recordBuild m buildContext options) rest).1,
     buildResponse m
     :: (builds (recordBuild m buildContext options) rest).2).
Proof.
  simpl. by destruct (builds (recordBuild m buildContext options) rest).
Qed.

Lemma pushes_cons m image rest :
  pushes m (image :: rest)
  = ((pushes (recordPush m image) rest).1,
     (ImagePush m image).2 :: (pushes (recordPush m image) rest).2).
Proof. simpl. by destruct (pushes (recordPush m image) rest). Qed.

(** *** The count of builds as an [int] *)

Lemma wrapInt_id z : isInt z → wrapInt z = z.
Proof.
  unfold isInt, wrapInt. intros Hz. rewrite Z.mod_small by lia. lia.
Qed.

Lemma wrapInt_isInt z : isInt (wrapInt z).
Proof.
  unfold isInt, wrapInt.
  pose proof (Z.mod_pos_bound (z + 2 ^ 63) (2 ^ 64)) as Hb. lia.
Qed.

Lemma wrapInt_add_l a b : wrapInt (wrapInt a + b) = wrapInt (a + b).
Proof.
  unfold wrapInt. f_equal.
  replace ((a + 2 ^ 63) mod 2 ^ 64 - 2 ^ 63 + b + 2 ^ 63)%Z
    with ((a + 2 ^ 63) mod 2 ^ 64 + b)%Z by lia.
  rewrite Zplus_mod_idemp_l. f_equal. lia.
Qed.

(** X9: every call of [ImageBuild] is recorded, whatever it returns: after
    a series of calls [BuildCount] has grown by their number, wrapping
    around as an [int] does, and the contexts and options are appended in
    the order of the calls; what makes the client fail is left as it
    was. *)
Theorem builds_recorded (m : MockDocker)
    (calls : list (string * ImageBuildOptions)) :
  isInt (BuildCount m) →
  let m' := (builds m calls).1 in
  BuildCount m' = wrapInt (BuildCount m + Z.of_nat (length calls))
  ∧ ((BuildCount m + Z.of_nat (length calls) < 2 ^ 63)%Z →
     BuildCount m' = (BuildCount m + Z.of_nat (length calls))%Z)
  ∧ BuildContext m' = BuildContext m ++ calls.*1
  ∧ BuildOptions m' = BuildOptions m ++ calls.*2
  ∧ length (builds m calls).2 = length calls
  ∧ BuildError m' = BuildError m
  ∧ BrokenOutput m' = BrokenOutput m
  ∧ ResponseError m' = ResponseError m
  ∧ Images m' = Images m.
Proof.
  intros Hint. cbv zeta.
  assert (BuildCount (builds m calls).1
          = wrapInt (BuildCount m + Z.of_nat (length calls))
          ∧ BuildContext (builds m calls).1 = BuildContext m ++ calls.*1
          ∧ BuildOptions (builds m calls).1 = BuildOptions m ++ calls.*2
          ∧ length (builds m calls).2 = length calls
          ∧ BuildError (builds m calls).1 = BuildError m
          ∧ BrokenOutput (builds m calls).1 = BrokenOutput m
          ∧ ResponseError (builds m calls).1 = ResponseError m
          ∧ Images (builds m calls).1 = Images m) as Hall.
  { revert m Hint.
    induction calls as [|[buildContext options] calls IH]; intros m Hint.
    - simpl. rewrite !app_nil_r, Z.add_0_r, wrapInt_id by done. done.
    - rewrite builds_cons. simpl fst. simpl snd.
      destruct (IH (recordBuild m buildContext options))
        as (Hcount & Hctx & Hopts & Hlen & Herr & Hbroken & Hresp & Himg).
      { simpl. apply wrapInt_isInt. }
      rewrite Hcount, Hctx, Hopts, Herr, Hbroken, Hresp, Himg. simpl.
      rewrite <- !app_assoc, wrapInt_add_l. simpl.
      split_and!; try done; [f_equal; lia|lia]. }
  destruct Hall as (Hcount & Hrest). split_and!; try apply Hrest; [done|].
  intros Hsmall. rewrite Hcount. apply wrapInt_id.
  unfold isInt in *. lia.
Qed.

(** X10: a single [ImageBuild] panics exactly when it reaches
    [m.BuildError[m.BuildCount]] with a negative count, and returns an
    error exactly when an error is scheduled for the current count and
    neither [BrokenOutput] nor [ResponseError] is set; then the error is
    the scheduled one. *)
Theorem ImageBuild_error_or_panic (m : MockDocker) (buildContext : string)
    (options : ImageBuildOptions) :
  let r := (ImageBuild m buildContext options).2 in
  (r = Panicked ↔
   BrokenOutput m = false ∧ ResponseError m = None ∧ (BuildCount m < 0)%Z)
  ∧ (∀ e, errorOf r = Some e ↔
          BrokenOutput m = false ∧ ResponseError m = None
          ∧ (0 ≤ BuildCount m)%Z
          ∧ BuildError m !! Z.to_nat (BuildCount m) = Some (Some e)).
Proof.
  simpl. unfold buildResponse.
  destruct (BrokenOutput m);
    [split; [|intros e]; simpl; intuition congruence|].
  destruct (ResponseError m) as [e'|];
    [split; [|intros e]; simpl; intuition congruence|].
  destruct (Z.ltb_spec (BuildCount m) (Z.of_nat (length (BuildError m))))
    as [Hlt|Hge].
  - destruct (Z.ltb_spec (BuildCount m) 0) as [Hneg|Hpos].
    + split; [|intros e]; simpl; intuition (congruence || lia).
    + destruct (BuildError m !! Z.to_nat (BuildCount m)) as [[e'|]|] eqn:Hn;
        simpl; (split; [|intros e]); simpl;
        intuition (congruence || lia).
  - assert (BuildError m !! Z.to_nat (BuildCount m) = None) as Hnone.
    { apply lookup_ge_None. lia. }
    split; [|intros e]; simpl; intuition (congruence || lia).
Qed.

(** The errors returned by a series of calls on a client whose count is
    [n]. *)
Lemma builds_errors_from (m : MockDocker)
    (calls : list (string * ImageBuildOptions)) (n : nat) :
  BrokenOutput m = false → ResponseError m = None →
  BuildCount m = Z.of_nat n →
  (Z.of_nat n + Z.of_nat (length calls) ≤ 2 ^ 63)%Z →
  (Panicked ∉ (builds m calls).2)
  ∧ errorOf <$> (builds m calls).2
    = (λ i, default None (BuildError m !! (n + i)))
      <$> seq 0 (length calls).
Proof.
  revert m n. induction calls as [|[buildContext options] calls IH];
    intros m n Hbroken Hresp Hcount Hbound.
  - simpl. split; [apply not_elem_of_nil|done].
  - rewrite builds_cons. simpl snd.
    assert (buildResponse m ≠ Panicked
            ∧ errorOf (buildResponse m)
              = default None (BuildError m !! n)) as [Hnp Hhead].
    { unfold buildResponse. rewrite Hbroken, Hresp, Hcount.
      rewrite Nat2Z.id.
      destruct (Z.ltb_spec (Z.of_nat n)
                  (Z.of_nat (length (BuildError m)))) as [Hlt|Hge].
      - destruct (Z.ltb_spec (Z.of_nat n) 0) as [?|_]; [lia|].
        by destruct (BuildError m !! n) as [[e|]|].
      - rewrite (proj2 (lookup_ge_None (BuildError m) n)) by lia. done. }
    assert (calls = [] ∨ (Z.of_nat n + 1 < 2 ^ 63)%Z) as [-> | Hsmall].
    { destruct calls; [by left|right]. simpl length in Hbound. lia. }
    { simpl. split.
      - rewrite elem_of_cons. intros [Heq|Hin]; [by apply Hnp|].
        by apply elem_of_nil in Hin.
      - by rewrite Hhead, Nat.add_0_r. }
    destruct (IH (recordBuild m buildContext options) (S n))
      as [Hpanic Herrors]; [done|done| |simpl length in Hbound; lia|].
    { simpl. rewrite Hcount, wrapInt_id; [lia|]. unfold isInt. lia. }
    simpl BuildError in Herrors.
    split.
    + rewrite elem_of_cons. intros [Heq|Hin]; [by apply Hnp|by apply Hpanic].
    + rewrite fmap_cons, Hhead, Herrors. simpl. rewrite Nat.add_0_r.
      f_equal. rewrite <- (fmap_S_seq 0), <- list_fmap_compose.
      apply list_fmap_ext. intros _ i _. simpl. do 2 f_equal. lia.
Qed.

(** X11: the scheduled errors are handed out one build at a time: on a
    client that starts at count 0 with neither [BrokenOutput] nor
    [ResponseError], in a series of builds that is not longer than the
    values of an [int] allow, the i-th build returns [BuildError[i]], no
    error beyond the end of the schedule, and no build panics. *)
Theorem builds_scheduled_errors (m : MockDocker)
    (calls : list (string * ImageBuildOptions)) :
  BrokenOutput m = false → ResponseError m = None → BuildCount m = 0%Z →
  (Z.of_nat (length calls) ≤ 2 ^ 63)%Z →
  (Panicked ∉ (builds m calls).2)
  ∧ errorOf <$> (builds m calls).2
    = (λ i, default None (BuildError m !! i)) <$> seq 0 (length calls).
Proof.
  intros Hbroken Hresp Hcount Hbound.
  apply (builds_errors_from m calls 0 Hbroken Hresp Hcount). lia.
Qed.

(** X12: every pushed image is noted, also when the push fails or panics;
    a push returns [PushError] when it is set, and panics exactly when
    neither an error nor an output is set. *)
Theorem pushes_recorded (m : MockDocker) (images : list string) :
  Images (pushes m images).1 = Images m ++ images
  ∧ length (pushes m images).2 = length images
  ∧ (∀ r, r ∈ (pushes m images).2 → errorOf r = PushError m)
  ∧ (Panicked ∈ (pushes m images).2 ↔
     images ≠ [] ∧ PushError m = None ∧ PushOutput m = None).
Proof.
  revert m. induction images as [|image images IH]; intros m.
  - simpl. rewrite app_nil_r. split_and!; try done.
    + intros r ?%elem_of_nil. done.
    + split; [by intros ?%elem_of_nil|]. by intros [? _].
  - rewrite pushes_cons. simpl fst. simpl snd.
    destruct (IH (recordPush m image)) as (Himg & Hlen & Herr & Hpanic).
    simpl in Himg, Herr, Hpanic.
    split_and!.
    + rewrite Himg. by rewrite <- app_assoc.
    + simpl. by rewrite Hlen.
    + intros r [->|Hin]%elem_of_cons; [|by apply Herr].
      by destruct (PushError m), (PushOutput m).
    + rewrite elem_of_cons, Hpanic.
      destruct (PushError m) as [e|], (PushOutput m) as [o|]; simpl;
        intuition congruence.
Qed.

End DockerFacts.

(** ** Facts about [Build] *)

Module BuildFacts.
Import Docker Build.

Lemma clean_dec decode line : clean decode line ∨ ¬ clean decode line.
Proof.
  unfold clean. destruct (decode line) as [e| |r] eqn:Hd.
  - right. intros (r & ? & _). done.
  - right. intros (r & ? & _). done.
  - destruct (ErrorDetail r) as [d|] eqn:He.
    + right. intros (r' & [= <-] & ?). congruence.
    + left. eauto.
Qed.

(** The clean lines at the head of the response only add their streams. *)
Lemma respond_clean_prefix decode pre rest written errors :
  Forall (clean decode) pre →
  respond decode (pre ++ rest) written errors
  = respond decode rest (written ++ (streamOf decode <$> pre)) errors.
Proof.
  intros Hpre. revert written.
  induction Hpre as [|line pre (r & Hd & He) _ IH]; intros written; simpl.
  - by rewrite app_nil_r.
  - rewrite Hd, He, IH. unfold streamOf at 2. rewrite Hd.
    by rewrite <- app_assoc.
Qed.

Lemma respond_dirty decode bad post written errors :
  ¬ clean decode bad →
  returned (respond decode (bad :: post) written errors) = verdict decode bad
  ∧ verdict decode bad ≠ Return () None
  ∧ out (respond decode (bad :: post) written errors) = written
  ∧ respond decode (bad :: post) written errors
    = respond decode [bad] written errors.
Proof.
  intros Hbad. unfold verdict. simpl.
  destruct (decode bad) as [e| |r] eqn:Hd; [done..|].
  destruct (ErrorDetail r) as [[code msg]|] eqn:He; [done|].
  exfalso. apply Hbad. exists r. done.
Qed.

Lemma respond_all_clean decode lines written errors :
  Forall (clean decode) lines →
  respond decode lines written errors
  = mkReport (Return () None)
      (written ++ (streamOf decode <$> lines)) errors.
Proof.
  intros Hall. rewrite <- (app_nil_r lines) at 1.
  by rewrite respond_clean_prefix.
Qed.

Lemma respond_nil_clean decode lines written errors :
  returned (respond decode lines written errors) = Return () None →
  Forall (clean decode) lines.
Proof.
  revert written. induction lines as [|line lines IH]; intros written Hret;
    [constructor|].
  destruct (clean_dec decode line) as [Hline|Hline].
  - constructor; [done|].
    apply (IH (written ++ [streamOf decode line])).
    change (line :: lines) with ([line] ++ lines) in Hret.
    by rewrite respond_clean_prefix in Hret by (by constructor).
  - destruct (respond_dirty decode line lines written errors Hline)
      as (Hv & Hne & _). congruence.
Qed.

(** X13: the loop over the response returns no error exactly when every
    line decodes to a value without error detail; then the streams of all
    lines were written to [out], in order, and nothing to [eout]. *)
Theorem respond_no_error (decode : string → Decoded) (lines : list string)
    (written errors : list string) :
  (returned (respond decode lines written errors) = Return () None
   ↔ Forall (clean decode) lines)
  ∧ (Forall (clean decode) lines →
     out (respond decode lines written errors)
     = written ++ (streamOf decode <$> lines)
     ∧ eout (respond decode lines written errors) = errors).
Proof.
  split.
  - split; [apply respond_nil_clean|].
    intros Hall. by rewrite respond_all_clean.
  - intros Hall. by rewrite respond_all_clean.
Qed.

(** X14: the loop stops at the first line that is not clean: it returns
    the error of that line, or panics on a [null], after writing the
    streams of the lines before it; the lines after it are not read. *)
Theorem respond_first_failure (decode : string → Decoded)
    (pre post : list string) (bad : string) (written errors : list string) :
  Forall (clean decode) pre → ¬ clean decode bad →
  let r := respond decode (pre ++ bad :: post) written errors in
  returned r = verdict decode bad
  ∧ returned r ≠ Return () None
  ∧ out r = written ++ (streamOf decode <$> pre)
  ∧ r = respond decode (pre ++ [bad]) written errors.
Proof.
  intros Hpre Hbad r. subst r.
  rewrite !respond_clean_prefix by done.
  destruct (respond_dirty decode bad post
              (written ++ (streamOf decode <$> pre)) errors Hbad)
    as (Hv & Hne & Hout & Hsame).
  split_and!; try done. by rewrite Hv.
Qed.

(** The response of a client that is neither broken nor answers with an
    error, for a count within its schedule. *)
Lemma buildResponse_scheduled m e :
  BrokenOutput m = false → ResponseError m = None →
  (0 ≤ BuildCount m)%Z →
  BuildError m !! Z.to_nat (BuildCount m) = Some (Some e) →
  buildResponse m
  = Return (errorDetailBody "123" (showErrors (BuildError m))) (Some e).
Proof.
  intros Hbroken Hresp Hpos Hsched. unfold buildResponse.
  rewrite Hbroken, Hresp, Hsched.
  apply lookup_lt_Some in Hsched.
  destruct (Z.ltb_spec (BuildCount m) (Z.of_nat (length (BuildError m))));
    [|lia].
  destruct (Z.ltb_spec (BuildCount m) 0); [lia|done].
Qed.

(** X15: when the client has an error scheduled for this build, [Build]
    returns that error without reading the response: nothing is written
    after the login, and the build is counted, with the count of an
    [int]. *)
Theorem Build_scheduled_error (env : Collaborators MockDocker)
    (m m1 : MockDocker) (buildContext dockerfile : string)
    (cfg : Config MockDocker) (registry : Registry MockDocker)
    (written logged : list string) (e : error) :
  Load env (Getwd env) = (written, Ok cfg) →
  CurrentRegistry cfg = Ok registry →
  Login registry m = (m1, logged, None) →
  BrokenOutput m1 = false → ResponseError m1 = None →
  (0 ≤ BuildCount m1)%Z →
  BuildError m1 !! Z.to_nat (BuildCount m1) = Some (Some e) →
  let b := Build env m buildContext dockerfile in
  returned (report b) = Return () (Some e)
  ∧ out (report b) = written ++ logged
  ∧ eout (report b) = []
  ∧ BuildCount (client b) = wrapInt (BuildCount m1 + 1)
  ∧ ((BuildCount m1 + 1 < 2 ^ 63)%Z →
     BuildCount (client b) = (BuildCount m1 + 1)%Z).
Proof.
  intros Hload Hreg Hlogin Hbroken Hresp Hpos Hsched b. subst b.
  unfold Build. rewrite Hload, Hreg, Hlogin. simpl.
  rewrite (buildResponse_scheduled m1 e) by done. simpl.
  split_and!; try done.
  intros Hsmall. apply DockerFacts.wrapInt_id. unfold isInt. lia.
Qed.

(** X16: once the login succeeded, [Build] asks the client for exactly one
    build, counted as an [int] counts, with the commit tag first, the
    branch tag second and a third tag exactly on the branch [master]. *)
Theorem Build_one_build (env : Collaborators MockDocker)
    (m m1 : MockDocker) (buildContext dockerfile : string)
    (cfg : Config MockDocker) (registry : Registry MockDocker)
    (written logged : list string) :
  Load env (Getwd env) = (written, Ok cfg) →
  CurrentRegistry cfg = Ok registry →
  Login registry m = (m1, logged, None) →
  let b := Build env m buildContext dockerfile in
  let ci := CurrentCI cfg in
  ∃ options,
    BuildOptions (client b) = BuildOptions m1 ++ [options]
    ∧ BuildContext (client b) = BuildContext m1 ++ [buildContext]
    ∧ BuildCount (client b) = wrapInt (BuildCount m1 + 1)
    ∧ ((- 2 ^ 63 ≤ BuildCount m1 + 1 < 2 ^ 63)%Z →
       BuildCount (client b) = (BuildCount m1 + 1)%Z)
    ∧ Dockerfile options = dockerfile
    ∧ Tags options !! 0
      = Some (Tag env (RegistryUrl registry) (BuildName ci) (Commit ci))
    ∧ Tags options !! 1
      = Some (Tag env (RegistryUrl registry) (BuildName ci)
                (BranchReplaceSlash ci))
    ∧ (length (Tags options) = 3 ↔ Branch ci = "master")
    ∧ (length (Tags options) = 2 ↔ Branch ci ≠ "master").
Proof.
  intros Hload Hreg Hlogin b ci. subst b ci.
  exists (optionsOf env registry (CurrentCI cfg) dockerfile).
  unfold Build. rewrite Hload, Hreg, Hlogin. simpl.
  assert (∀ r : Returned string,
    client (match r with
            | Return body (Some e) =>
                mkBuilt
                  (recordBuild m1 buildContext
                     (optionsOf env registry (CurrentCI cfg) dockerfile))
                  (mkReport (Return () (Some e)) (written ++ logged) [])
            | Return body None =>
                mkBuilt
                  (recordBuild m1 buildContext
                     (optionsOf env registry (CurrentCI cfg) dockerfile))
                  (respond (decode env) (scan env body)
                     (written ++ logged) [])
            | Panicked =>
                mkBuilt
                  (recordBuild m1 buildContext
                     (optionsOf env registry (CurrentCI cfg) dockerfile))
                  (mkReport Panicked (written ++ logged) [])
            end)
    = recordBuild m1 buildContext
        (optionsOf env registry (CurrentCI cfg) dockerfile)) as Hclient.
  { by intros [body [e|]|]. }
  rewrite Hclient. simpl. unfold tagsOf.
  assert ((- 2 ^ 63 ≤ BuildCount m1 + 1 < 2 ^ 63)%Z →
          wrapInt (BuildCount m1 + 1) = (BuildCount m1 + 1)%Z) as Hcount.
  { intros Hsmall. by apply DockerFacts.wrapInt_id. }
  destruct (String.eqb_spec (Branch (CurrentCI cfg)) "master") as [Hm|Hm];
    simpl; split_and!; try done; split; try done; lia.
Qed.

(** X17: when the response carries an error detail, as the client of the
    tests answers with [ResponseError], [Build] returns the message of the
    detail and writes one line with code and message to [eout]. *)
Theorem Build_response_error (env : Collaborators MockDocker)
    (m m1 : MockDocker) (buildContext dockerfile : string)
    (cfg : Config MockDocker) (registry : Registry MockDocker)
    (written logged : list string) (e : error) (r : responsetype) :
  Load env (Getwd env) = (written, Ok cfg) →
  CurrentRegistry cfg = Ok registry →
  Login registry m = (m1, logged, None) →
  BrokenOutput m1 = false → ResponseError m1 = Some e →
  scan env (errorDetailBody "123" e) = [errorDetailBody "123" e] →
  decode env (errorDetailBody "123" e) = Value r →
  ErrorDetail r = Some (123%Z, e) →
  let b := Build env m buildContext dockerfile in
  returned (report b) = Return () (Some e)
  ∧ out (report b) = written ++ logged
  ∧ eout (report b) = ["Code: 123 Message: " +:+ e +:+ newline].
Proof.
  intros Hload Hreg Hlogin Hbroken Hresp Hscan Hdecode Hdetail b. subst b.
  unfold Build. rewrite Hload, Hreg, Hlogin. simpl.
  unfold buildResponse. rewrite Hbroken, Hresp, Hscan. simpl.
  by rewrite Hdecode, Hdetail.
Qed.

End BuildFacts.

(** ** The added facts on the samples *)

Module SampleFacts.
Import GoStrings GoStringsFacts File FileFacts ResolverFacts ResolverTheorems.
Import FilePath CI BuildNameFacts Docker DockerFacts Build BuildFacts Samples.

#[local] Existing Instance noTables.

Lemma sampleNames_NoDup : NoDup (Name <$> (entry <$> sampleNames)).
Proof.
  vm_compute.
  repeat (apply NoDup_cons_2;
          [rewrite ?elem_of_cons, elem_of_nil; intuition discriminate|]).
  apply NoDup_nil_2.
Qed.

Lemma filesForTarget_override_rule_witness :
  ∃ res,
    filesForTarget sampleDir map_to_list "k8s" "prod" "file" ".yaml" = Ok res
    ∧ "a-prod.yaml" ∈ Name <$> res
    ∧ "b.yaml" ∈ Name <$> res
    ∧ "a.yaml" ∉ Name <$> res.
Proof.
  destruct (filesForTarget_override_rule sampleDir map_to_list
              "k8s" "prod" "file" ".yaml" (entry <$> sampleNames))
    as (res & Hres & _ & Hover & Hbare & _).
  - intros m. reflexivity.
  - reflexivity.
  - exists res. split_and!.
    + done.
    + apply Hover; [|reflexivity].
      vm_compute. apply list_elem_of_further, list_elem_of_here.
    + destruct (Hbare "b") as [_ [_ Hb]]; [|reflexivity|].
      { vm_compute. apply list_elem_of_here. }
      apply Hb. intros Hin. vm_compute in Hin.
      repeat (apply elem_of_cons in Hin as [Hin|Hin]; [discriminate Hin|]).
      by apply elem_of_nil in Hin.
    + destruct (Hbare "a") as [_ [Ha _]]; [|reflexivity|].
      { vm_compute. do 3 apply list_elem_of_further. apply list_elem_of_here. }
      intros Hin. apply Ha in Hin. apply Hin. vm_compute.
      apply list_elem_of_further, list_elem_of_here.
Defined.

Lemma filesForTarget_from_directory_witness :
  ∃ files,
    sampleDir "k8s" = Ok files
    ∧ ∀ fi, fi ∈ [entry "a-prod.yaml"; entry "b.yaml"] → fi ∈ files.
Proof.
  apply (filesForTarget_from_directory sampleDir map_to_list
           "k8s" "prod" "file" ".yaml").
  - intros m. reflexivity.
  - vm_compute. reflexivity.
Defined.

Lemma filesForTarget_listing_order_witness :
  filesForTarget sampleDir map_to_list "k8s" "prod" "file" ".yaml"
  = filesForTarget sampleDirBackwards backwards "k8s" "prod" "file" ".yaml".
Proof.
  apply (filesForTarget_listing_order sampleDir sampleDirBackwards
           map_to_list backwards "k8s" "prod" "file" ".yaml"
           (entry <$> sampleNames) (entry <$> reverse sampleNames)).
  - intros m. reflexivity.
  - intros m. apply reverse_Permutation.
  - reflexivity.
  - reflexivity.
  - apply sampleNames_NoDup.
  - apply fmap_Permutation. symmetry. apply reverse_Permutation.
Defined.

Lemma filesForTarget_default_or_override_witness :
  ("a" +:+ ".yaml" ∈ Name <$> [entry "a-prod.yaml"; entry "b.yaml"]
   ∧ ("a" +:+ "-" +:+ "prod" +:+ ".yaml"
      ∉ Name <$> [entry "a-prod.yaml"; entry "b.yaml"])
   ∧ ("a" +:+ "-" +:+ "prod" +:+ ".yaml" ∉ Name <$> (entry <$> sampleNames)))
  ∨ (("a" +:+ ".yaml" ∉ Name <$> [entry "a-prod.yaml"; entry "b.yaml"])
     ∧ "a" +:+ "-" +:+ "prod" +:+ ".yaml"
       ∈ Name <$> [entry "a-prod.yaml"; entry "b.yaml"]
     ∧ "a" +:+ "-" +:+ "prod" +:+ ".yaml" ∈ Name <$> (entry <$> sampleNames)).
Proof.
  apply (filesForTarget_default_or_override sampleDir map_to_list
           "k8s" "prod" "file" ".yaml" "a").
  - intros m. reflexivity.
  - reflexivity.
  - vm_compute. reflexivity.
  - vm_compute. do 3 apply list_elem_of_further. apply list_elem_of_here.
  - reflexivity.
Defined.

Lemma filesForTarget_dashed_target_collision_witness :
  ∃ res1 res2,
    filesForTarget regionalDir map_to_list "k8s" "prod" "file" ".yaml"
    = Ok res1
    ∧ filesForTarget regionalDir map_to_list "k8s" ("eu" +:+ "-" +:+ "prod")
        "file" ".yaml" = Ok res2
    ∧ "svc" +:+ "-" +:+ "eu" +:+ "-" +:+ "prod" +:+ ".yaml" ∈ Name <$> res1
    ∧ "svc" +:+ "-" +:+ "eu" +:+ "-" +:+ "prod" +:+ ".yaml" ∈ Name <$> res2.
Proof.
  apply (filesForTarget_dashed_target_collision regionalDir map_to_list
           "k8s" "file" ".yaml" "svc" "eu" "prod"
           [entry "svc-eu-prod.yaml"]).
  - intros m. reflexivity.
  - reflexivity.
  - vm_compute. apply list_elem_of_here.
Defined.

Lemma files_and_scripts_disjoint_witness :
  Name (entry "a-prod.yaml") ≠ Name (entry "setup-prod.sh").
Proof.
  apply (files_and_scripts_disjoint twoDirs map_to_list
           "k8s" "deploy" "prod" "prod"
           [entry "a-prod.yaml"; entry "b.yaml"] [entry "setup-prod.sh"]).
  - intros m. reflexivity.
  - vm_compute. reflexivity.
  - vm_compute. reflexivity.
  - apply list_elem_of_here.
  - apply list_elem_of_here.
Defined.

Lemma filesForTarget_idempotent_witness :
  filesForTarget resolvedDir backwards "out" "prod" "file" ".yaml"
  = Ok [entry "a-prod.yaml"; entry "b.yaml"].
Proof.
  apply (filesForTarget_idempotent sampleDir resolvedDir
           map_to_list backwards "k8s" "out" "prod" "file" ".yaml").
  - intros m. reflexivity.
  - intros m. apply reverse_Permutation.
  - vm_compute. reflexivity.
  - reflexivity.
Defined.

Lemma BuildName_last_element_witness :
  CI.BuildName ("/builds/group" +:+ "/" +:+ "Dummy_Repo")
  = ToLower "Dummy_Repo"
  ∧ (isASCII "Dummy_Repo" = true →
     String.length (CI.BuildName ("/builds/group" +:+ "/" +:+ "Dummy_Repo"))
     = String.length "Dummy_Repo"
     ∧ ∀ i, String.get i
              (CI.BuildName ("/builds/group" +:+ "/" +:+ "Dummy_Repo"))
            = (λ c : ascii,
                 if (65 <=? nat_of_ascii c) && (nat_of_ascii c <=? 90)
                 then ascii_of_nat (nat_of_ascii c + 32)
                 else c) <$> String.get i "Dummy_Repo").
Proof.
  apply (BuildName_last_element "/builds/group" "Dummy_Repo").
  - discriminate.
  - reflexivity.
Defined.

Example BuildName_mixed_case :
  CI.BuildName "/builds/group/Dummy_Repo" = "dummy_repo".
Proof. reflexivity. Qed.

Lemma BuildName_trailing_separator_witness :
  CI.BuildName ("/builds/app" +:+ "/") = CI.BuildName "/builds/app".
Proof.
  destruct (BuildName_trailing_separator "/builds/app") as [Hsame _].
  apply Hsame. discriminate.
Defined.

Lemma builds_recorded_witness :
  let m' :=
    (builds secondFails
       [("a", plainOptions); ("b", plainOptions); ("c", plainOptions)]).1 in
  BuildCount m' = 3%Z
  ∧ BuildContext m' = ["a"; "b"; "c"]
  ∧ BuildOptions m' = [plainOptions; plainOptions; plainOptions].
Proof.
  destruct (builds_recorded secondFails
              [("a", plainOptions); ("b", plainOptions); ("c", plainOptions)])
    as (_ & Hcount & Hctx & Hopts & _).
  - unfold isInt. simpl. lia.
  - cbv zeta. split_and!.
    + rewrite Hcount; [reflexivity|]. simpl. lia.
    + by rewrite Hctx.
    + by rewrite Hopts.
Defined.

Lemma builds_scheduled_errors_witness :
  (Panicked
   ∉ (builds secondFails
        [("a", plainOptions); ("b", plainOptions); ("c", plainOptions)]).2)
  ∧ errorOf
    <$> (builds secondFails
           [("a", plainOptions); ("b", plainOptions); ("c", plainOptions)]).2
    = (λ i, default None (BuildError secondFails !! i)) <$> seq 0 3.
Proof.
  apply (builds_scheduled_errors secondFails
           [("a", plainOptions); ("b", plainOptions); ("c", plainOptions)]);
    first [reflexivity | simpl; lia].
Defined.

Example builds_second_fails :
  errorOf
  <$> (builds secondFails
         [("a", plainOptions); ("b", plainOptions); ("c", plainOptions)]).2
  = [None; Some "build failed"; None].
Proof. reflexivity. Qed.

Lemma sample_clean : clean sampleDecode successBody.
Proof. eexists. split; reflexivity. Qed.

Lemma sample_dirty : ¬ clean sampleDecode "oops".
Proof. intros (r & Hd & _). vm_compute in Hd. discriminate Hd. Qed.

Lemma respond_first_failure_witness :
  let r := respond sampleDecode ([successBody] ++ "oops" :: [successBody])
             [] [] in
  returned r = verdict sampleDecode "oops"
  ∧ returned r ≠ Return () None
  ∧ out r = [] ++ (streamOf sampleDecode <$> [successBody])
  ∧ r = respond sampleDecode ([successBody] ++ ["oops"]) [] [].
Proof.
  apply (respond_first_failure sampleDecode [successBody] [successBody]
           "oops" [] []).
  - constructor; [apply sample_clean|constructor].
  - apply sample_dirty.
Defined.

Lemma Build_scheduled_error_witness :
  let b := Build sampleEnv firstFails "context" "Dockerfile" in
  returned (report b) = Return () (Some "build failed")
  ∧ out (report b) = [] ++ []
  ∧ eout (report b) = []
  ∧ BuildCount (client b)
    = wrapInt
        (BuildCount
           (recordLogin firstFails
              (mkAuth "user" "secret" "repo.example.org")) + 1)
  ∧ ((BuildCount
        (recordLogin firstFails (mkAuth "user" "secret" "repo.example.org"))
      + 1 < 2 ^ 63)%Z →
     BuildCount (client b)
     = (BuildCount
          (recordLogin firstFails
             (mkAuth "user" "secret" "repo.example.org")) + 1)%Z).
Proof.
  apply (Build_scheduled_error sampleEnv firstFails
           (recordLogin firstFails (mkAuth "user" "secret" "repo.example.org"))
           "context" "Dockerfile"
           (mkConfig sampleCI (Ok sampleRegistry)) sampleRegistry [] []
           "build failed"); first [reflexivity | simpl; lia].
Defined.

Lemma Build_one_build_witness :
  let b := Build sampleEnv freshMock "context" "Dockerfile" in
  let m1 := recordLogin freshMock (mkAuth "user" "secret" "repo.example.org")
  in
  ∃ options,
    BuildOptions (client b) = BuildOptions m1 ++ [options]
    ∧ BuildContext (client b) = BuildContext m1 ++ ["context"]
    ∧ BuildCount (client b) = wrapInt (BuildCount m1 + 1)
    ∧ ((- 2 ^ 63 ≤ BuildCount m1 + 1 < 2 ^ 63)%Z →
       BuildCount (client b) = (BuildCount m1 + 1)%Z)
    ∧ Dockerfile options = "Dockerfile"
    ∧ Tags options !! 0
      = Some (Tag sampleEnv (RegistryUrl sampleRegistry) (BuildName sampleCI)
                (Commit sampleCI))
    ∧ Tags options !! 1
      = Some (Tag sampleEnv (RegistryUrl sampleRegistry) (BuildName sampleCI)
                (BranchReplaceSlash sampleCI))
    ∧ (length (Tags options) = 3 ↔ Branch sampleCI = "master")
    ∧ (length (Tags options) = 2 ↔ Branch sampleCI ≠ "master").
Proof.
  apply (Build_one_build sampleEnv freshMock
           (recordLogin freshMock (mkAuth "user" "secret" "repo.example.org"))
           "context" "Dockerfile"
           (mkConfig sampleCI (Ok sampleRegistry)) sampleRegistry [] []);
    reflexivity.
Defined.

Example Build_sample_tags :
  Tags <$> BuildOptions
             (client (Build sampleEnv freshMock "context" "Dockerfile"))
  = [["repo.example.org/app:abc123"; "repo.example.org/app:master";
      "repo.example.org/app:latest"]].
Proof. reflexivity. Qed.

Lemma Build_response_error_witness :
  let b := Build sampleEnv answersError "context" "Dockerfile" in
  returned (report b) = Return () (Some "no space left")
  ∧ out (report b) = [] ++ []
  ∧ eout (report b) = ["Code: 123 Message: " +:+ "no space left" +:+ newline].
Proof.
  apply (Build_response_error sampleEnv answersError
           (recordLogin answersError
              (mkAuth "user" "secret" "repo.example.org"))
           "context" "Dockerfile"
           (mkConfig sampleCI (Ok sampleRegistry)) sampleRegistry [] []
           "no space left"
           (mkResponse "" (Some (123%Z, "no space left")) ""));
    reflexivity.
Defined.

End SampleFacts.
